(** * Verification of the dashboard front-end data loader

    Shallow embedding of [tools/frontend-data-loader.js]: the column index,
    the filter engine, the pivot aggregator and the data store with its
    partition cache, together with the JavaScript built-ins these functions
    rely on ([Number], [||], [??], [===], [Array.prototype.includes],
    [Array.prototype.join], [String.prototype.split], [String.prototype.trim]
    and [JSON.stringify]).

    Conventions of the model.
    - A JavaScript string without lone surrogates is represented by its UTF-8
      encoding, a [string] of bytes.
    - A JavaScript number is [NaN], an infinity or an exact rational: IEEE
      rounding and overflow are not modelled, and [+0] and [-0] are
      identified (as [===] does).  No theorem below relies on a law of exact
      arithmetic that binary64 lacks; where rounding decides a question, the
      accumulation is evaluated in binary64 (module [Double]).
    - A JavaScript object used as a record of named properties is an
      association list in own-property order (insertion order; property
      names are assumed not to be canonical array indices, which JavaScript
      would move to the front).
    - The store is an explicit state threaded through a state-and-exception
      monad, [fetch] is a function from URLs to responses, and the URLs
      requested are recorded in a log.  An asynchronous function run on its
      own goes to completion; for calls that overlap, the resolution of a
      filter state is split at its [await] into [startResolution] and
      [completeResolution], which can be interleaved. *)

From Stdlib Require Import ZArith QArith Qcanon String Ascii List Lia DecimalString.
From Stdlib Require PrimFloat Uint63.
From stdpp Require Import base option list strings numbers gmap fin_maps.

Local Open Scope Z_scope.

(** ** Strings *)

Module Str.

Definition code (c : ascii) : Z := Z.of_N (N_of_ascii c).
Definition chr (z : Z) : ascii := ascii_of_N (Z.to_N z).
Definition single (c : ascii) : string := String c EmptyString.

(** The double quote and the backslash, by code. *)
Definition dquote : ascii := Ascii false true false false false true false false.
Definition bslash : ascii := Ascii false false true true true false true false.

Fixpoint concat (l : list string) : string :=
  match l with
  | [] => EmptyString
  | s :: l' => s +:+ concat l'
  end.

Fixpoint repeat (c : ascii) (n : nat) : string :=
  match n with
  | O => EmptyString
  | S n' => String c (repeat c n')
  end.

Fixpoint take (n : nat) (s : string) : string :=
  match n, s with
  | S n', String c r => String c (take n' r)
  | _, _ => EmptyString
  end.

Fixpoint drop (n : nat) (s : string) : string :=
  match n, s with
  | S n', String _ r => drop n' r
  | _, _ => s
  end.

(** [Array.prototype.join] on an array of strings. *)
Fixpoint join (sep : string) (l : list string) : string :=
  match l with
  | [] => EmptyString
  | [s] => s
  | s :: l' => s +:+ sep +:+ join sep l'
  end.

(** [String.prototype.split] with a one-character separator. *)
Fixpoint split (sep : ascii) (s : string) : list string :=
  match s with
  | EmptyString => [EmptyString]
  | String c r =>
      if decide (c = sep) then EmptyString :: split sep r
      else match split sep r with
           | h :: t => String c h :: t
           | [] => [single c]
           end
  end.

(** White space and line terminators of ECMAScript, in UTF-8: the one-byte
    ones, U+00A0, and the three-byte ones (U+1680, U+2000 to U+200A, U+2028,
    U+2029, U+202F, U+205F, U+3000, U+FEFF). *)
Definition isSpace1 (a : Z) : bool :=
  ((9 <=? a) && (a <=? 13)) || (a =? 32).
Definition isSpace2 (a b : Z) : bool := (a =? 194) && (b =? 160).
Definition isSpace3 (a b c : Z) : bool :=
  ((a =? 225) && (b =? 154) && (c =? 128))
  || ((a =? 226) && (b =? 128)
      && (((128 <=? c) && (c <=? 138)) || (c =? 168) || (c =? 169) || (c =? 175)))
  || ((a =? 226) && (b =? 129) && (c =? 159))
  || ((a =? 227) && (b =? 128) && (c =? 128))
  || ((a =? 239) && (b =? 187) && (c =? 191)).

(** Strip leading white space; with [fwd = false] the string is read
    backwards (the bytes of each code point arrive last byte first). *)
Fixpoint stripSpace (fwd : bool) (s : string) : string :=
  match s with
  | EmptyString => s
  | String c1 r1 =>
      if isSpace1 (code c1) then stripSpace fwd r1
      else match r1 with
           | EmptyString => s
           | String c2 r2 =>
               if (if fwd then isSpace2 (code c1) (code c2)
                   else isSpace2 (code c2) (code c1))
               then stripSpace fwd r2
               else match r2 with
                    | EmptyString => s
                    | String c3 r3 =>
                        if (if fwd then isSpace3 (code c1) (code c2) (code c3)
                            else isSpace3 (code c3) (code c2) (code c1))
                        then stripSpace fwd r3
                        else s
                    end
           end
  end.

(** [String.prototype.trim]. *)
Definition trim (s : string) : string :=
  String.rev (stripSpace false (String.rev (stripSpace true s))).

End Str.

(** ** JavaScript values *)

Module JS.

(** Numbers. *)
Inductive number : Type :=
| NaN
| PInf
| NInf
| Fin (q : Qc).

(** Primitive values: what a cell of a row or a scalar filter value holds. *)
Inductive value : Type :=
| Undefined
| Null
| Bool (b : bool)
| Num (n : number)
| Str (s : string).

#[global] Instance number_eq_dec : EqDecision number.
Proof. solve_decision. Defined.

#[global] Instance value_eq_dec : EqDecision value.
Proof. solve_decision. Defined.

Definition zero : number := Fin (Q2Qc 0).
Definition one : number := Fin (Q2Qc 1).
Definition ofZ (z : Z) : number := Fin (Q2Qc (inject_Z z)).
Definition ofNat (n : nat) : number := ofZ (Z.of_nat n).

(** [x + y] on numbers. *)
Definition add (x y : number) : number :=
  match x, y with
  | NaN, _ | _, NaN => NaN
  | PInf, NInf | NInf, PInf => NaN
  | PInf, _ | _, PInf => PInf
  | NInf, _ | _, NInf => NInf
  | Fin a, Fin b => Fin (a + b)%Qc
  end.

Definition Qc_sign (q : Qc) : comparison := (q ?= Q2Qc 0)%Qc.

(** [x / y] on numbers. *)
Definition div (x y : number) : number :=
  match x, y with
  | NaN, _ | _, NaN => NaN
  | Fin a, Fin b =>
      match Qc_sign b with
      | Eq => match Qc_sign a with Eq => NaN | Gt => PInf | Lt => NInf end
      | _ => Fin (a / b)%Qc
      end
  | Fin _, _ => zero
  | PInf, Fin b => match Qc_sign b with Lt => NInf | _ => PInf end
  | NInf, Fin b => match Qc_sign b with Lt => PInf | _ => NInf end
  | _, _ => NaN
  end.

(** [Number::toString] in radix 10 of a positive rational, printed with at
    most 17 significant digits (every safe integer and every decimal literal
    of at most 17 digits is printed exactly). *)
Definition digits (z : Z) : string := NilZero.string_of_int (Z.to_int z).
Definition ndigits (z : Z) : Z := Z.of_nat (String.length (digits z)).

(** The least [j] from [j0] on with [d <= p * 10^j], searched with fuel. *)
Fixpoint firstDigitAt (fuel : nat) (p d j : Z) : Z :=
  match fuel with
  | O => j
  | S fuel' => if d <=? p * 10 ^ j then j else firstDigitAt fuel' p d (j + 1)
  end.

(** [n] with [10^(n-1) <= p/d < 10^n]. *)
Definition magnitude (p d : Z) : Z :=
  if d <=? p then ndigits (p / d)
  else 1 - firstDigitAt (Z.to_nat (Z.log2 d) + 1) p d 1.

(** Rounding of [p / d] to the nearest integer, ties to even. *)
Definition roundDiv (p d : Z) : Z :=
  let q := p / d in
  let r := 2 * (p mod d) in
  if r <? d then q
  else if d <? r then q + 1
  else if Z.even q then q else q + 1.

Fixpoint stripZeros (fuel : nat) (s x : Z) : Z * Z :=
  match fuel with
  | O => (s, x)
  | S fuel' =>
      if (s mod 10 =? 0) && negb (s =? 0) then stripZeros fuel' (s / 10) (x + 1)
      else (s, x)
  end.

Definition formatDecimal (s n : Z) : string :=
  let ds := digits s in
  let k := ndigits s in
  if (k <=? n) && (n <=? 21) then
    ds +:+ Str.repeat "0" (Z.to_nat (n - k))
  else if (0 <? n) && (n <=? 21) then
    Str.take (Z.to_nat n) ds +:+ "." +:+ Str.drop (Z.to_nat n) ds
  else if (-6 <? n) && (n <=? 0) then
    "0." +:+ Str.repeat "0" (Z.to_nat (- n)) +:+ ds
  else
    let e := n - 1 in
    let es := (if e <? 0 then "-" else "+") +:+ digits (Z.abs e) in
    if k =? 1 then ds +:+ "e" +:+ es
    else Str.take 1 ds +:+ "." +:+ Str.drop 1 ds +:+ "e" +:+ es.

Definition positiveToString (p d : Z) : string :=
  let n0 := magnitude p d in
  let s0 := if n0 <=? 17 then roundDiv (p * 10 ^ (17 - n0)) d
            else roundDiv p (d * 10 ^ (n0 - 17)) in
  let '(s, x) := stripZeros 18 s0 (n0 - 17) in
  formatDecimal s (ndigits s + x).

Definition NumberToString (x : number) : string :=
  match x with
  | NaN => "NaN"
  | PInf => "Infinity"
  | NInf => "-Infinity"
  | Fin q =>
      let p := Qnum (this q) in
      let d := Zpos (Qden (this q)) in
      if p =? 0 then "0"
      else if p <? 0 then "-" +:+ positiveToString (- p) d
      else positiveToString p d
  end.

(** [ToString] of a primitive value. *)
Definition ToString (v : value) : string :=
  match v with
  | Undefined => "undefined"
  | Null => "null"
  | Bool true => "true"
  | Bool false => "false"
  | Num n => NumberToString n
  | Str s => s
  end.

(** [StringToNumber]: the [StringNumericLiteral] grammar. *)
Definition digitValue (base : Z) (c : ascii) : option Z :=
  let a := Str.code c in
  let v := if (48 <=? a) && (a <=? 57) then a - 48
           else if (97 <=? a) && (a <=? 102) then a - 87
           else if (65 <=? a) && (a <=? 70) then a - 55
           else 99 in
  if v <? base then Some v else None.

(** Reads the longest run of digits: its value, its length and the rest. *)
Fixpoint readDigits (base : Z) (acc : Z) (len : Z) (s : string) : Z * Z * string :=
  match s with
  | EmptyString => (acc, len, s)
  | String c r =>
      match digitValue base c with
      | Some v => readDigits base (acc * base + v) (len + 1) r
      | None => (acc, len, s)
      end
  end.

Definition scale (m e : Z) : Qc :=
  if 0 <=? e then Q2Qc (inject_Z (m * 10 ^ e))
  else Q2Qc (Qmake m (Z.to_pos (10 ^ (- e)))).

Definition readInteger (base : Z) (s : string) : number :=
  match readDigits base 0 0 s with
  | (m, len, EmptyString) => if 0 <? len then ofZ m else NaN
  | _ => NaN
  end.

Definition readExponent (m f : Z) (s : string) : number :=
  match s with
  | EmptyString => Fin (scale m (- f))
  | String c r =>
      if bool_decide (c = "e"%char) || bool_decide (c = "E"%char) then
        let '(neg, r') :=
          match r with
          | String "-"%char r' => (true, r')
          | String "+"%char r' => (false, r')
          | _ => (false, r)
          end in
        match readDigits 10 0 0 r' with
        | (e, len, EmptyString) =>
            if 0 <? len then Fin (scale m ((if neg then - e else e) - f)) else NaN
        | _ => NaN
        end
      else NaN
  end.

Definition readDecimal (s : string) : number :=
  let '(i, ilen, r) := readDigits 10 0 0 s in
  match r with
  | String "."%char r' =>
      let '(m, flen, r'') := readDigits 10 i 0 r' in
      if 0 <? ilen + flen then readExponent m flen r'' else NaN
  | _ => if 0 <? ilen then readExponent i 0 r else NaN
  end.

Definition negate (x : number) : number :=
  match x with
  | NaN => NaN
  | PInf => NInf
  | NInf => PInf
  | Fin q => Fin (- q)%Qc
  end.

Definition readSigned (s : string) : number :=
  if decide (s = "Infinity") then PInf else readDecimal s.

Definition StringToNumber (s : string) : number :=
  match Str.trim s with
  | EmptyString => zero
  | String "0"%char (String c r) as t =>
      if bool_decide (c = "x"%char) || bool_decide (c = "X"%char) then readInteger 16 r
      else if bool_decide (c = "o"%char) || bool_decide (c = "O"%char) then readInteger 8 r
      else if bool_decide (c = "b"%char) || bool_decide (c = "B"%char) then readInteger 2 r
      else readSigned t
  | String "-"%char r => negate (readSigned r)
  | String "+"%char r => readSigned r
  | t => readSigned t
  end.

(** [ToNumber] and [ToBoolean] of a primitive value. *)
Definition ToNumber (v : value) : number :=
  match v with
  | Undefined => NaN
  | Null => zero
  | Bool true => one
  | Bool false => zero
  | Num n => n
  | Str s => StringToNumber s
  end.

Definition ToBoolean (v : value) : bool :=
  match v with
  | Undefined | Null => false
  | Bool b => b
  | Num NaN => false
  | Num (Fin q) => negb (bool_decide (q = Q2Qc 0))
  | Num _ => true
  | Str s => negb (bool_decide (s = EmptyString))
  end.

(** [a || b] and [a ?? b]. *)
Definition or (a b : value) : value := if ToBoolean a then a else b.
Definition nullish (a b : value) : value :=
  match a with
  | Undefined | Null => b
  | _ => a
  end.

(** [a === b] on primitive values: [NaN] differs from itself. *)
Definition strictEquals (a b : value) : bool :=
  match a, b with
  | Num NaN, _ | _, Num NaN => false
  | _, _ => bool_decide (a = b)
  end.

(** [SameValueZero], the comparison of [Array.prototype.includes]. *)
Definition sameValueZero (a b : value) : bool := bool_decide (a = b).

(** [xs.includes(x)]. *)
Definition includes (xs : list value) (x : value) : bool :=
  existsb (fun y => sameValueZero y x) xs.

(** [QuoteJSONString]. *)
Definition hexDigit (z : Z) : ascii :=
  if z <? 10 then Str.chr (48 + z) else Str.chr (87 + z).

Definition escapeChar (c : ascii) : string :=
  let a := Str.code c in
  if decide (c = Str.dquote) then String Str.bslash (Str.single Str.dquote)
  else if decide (c = Str.bslash) then String Str.bslash (Str.single Str.bslash)
  else if a =? 8 then String Str.bslash "b"
  else if a =? 9 then String Str.bslash "t"
  else if a =? 10 then String Str.bslash "n"
  else if a =? 12 then String Str.bslash "f"
  else if a =? 13 then String Str.bslash "r"
  else if a <? 32 then
    String Str.bslash ("u00" +:+ String (hexDigit (a / 16)) (Str.single (hexDigit (a mod 16))))
  else Str.single c.

Fixpoint escape (s : string) : string :=
  match s with
  | EmptyString => EmptyString
  | String c r => escapeChar c +:+ escape r
  end.

Definition quote (s : string) : string :=
  String Str.dquote (escape s +:+ Str.single Str.dquote).

End JS.

(** ** Data model *)

(** A row is an array of cells, aligned with the columns of its slice. *)
Abbreviation Row := (list JS.value).

(** A partition as [loadPartitionSlice] returns it: [{ columns, data }]. *)
Record Slice : Type := mkSlice {
  columns : list string;
  data : list Row;
}.

(** The value of a filter: a scalar or an array of scalars. *)
Inductive FilterValue : Type :=
| Scalar (v : JS.value)
| Arr (xs : list JS.value).

#[global] Instance FilterValue_eq_dec : EqDecision FilterValue.
Proof. solve_decision. Defined.

(** A filter object, as [Object.entries] lists it. *)
Abbreviation FilterState := (list (string * FilterValue)).

(** An entry of [metadata.partitions]: [{ filters, path }]. *)
Record PartitionDescriptor : Type := mkPartition {
  part_filters : FilterState;
  part_path : string;
}.

(** The manifest [index.json]: [{ filters, partitions, format }]. *)
Record Metadata : Type := mkMetadata {
  meta_filters : list (string * list JS.value);
  partitions : list PartitionDescriptor;
  format : string;
}.

(** A metric of a pivot query: [{ name, source, reducer }]. *)
Record Metric : Type := mkMetric {
  name : string;
  source : string;
  reducer : string;
}.

(** A bucket of the pivot table: [{ key, values, rows }]. *)
Record PivotRow : Type := mkPivotRow {
  key : string;
  values : gmap string JS.number;
  rows : list Row;
}.

(** ** Property access on objects *)

(** [obj[k]] on an object given by its entries. *)
Fixpoint getProp {A : Type} (k : string) (obj : list (string * A)) : option A :=
  match obj with
  | [] => None
  | (k', v) :: obj' => if decide (k' = k) then Some v else getProp k obj'
  end.

(** [obj[k] = v]: an existing property keeps its place, a new one goes last. *)
Fixpoint setProp {A : Type} (k : string) (v : A) (obj : list (string * A))
  : list (string * A) :=
  match obj with
  | [] => [(k, v)]
  | (k', v') :: obj' =>
      if decide (k' = k) then (k, v) :: obj' else (k', v') :: setProp k v obj'
  end.

(** [{ ...a, ...b }]. *)
Definition spread {A : Type} (a b : list (string * A)) : list (string * A) :=
  fold_left (fun obj e => setProp e.1 e.2 obj) b (fold_left (fun obj e => setProp e.1 e.2 obj) a []).

(** [row[idx]], where [idx] is the result of [columnIndex.get(column)]:
    [undefined] when the column is unknown or the row is too short. *)
Definition cellAt (row : Row) (idx : option nat) : JS.value :=
  match idx with
  | Some i => default JS.Undefined (row !! i)
  | None => JS.Undefined
  end.

(** ** [JSON.stringify] of a filter object *)

(** An array element: [undefined] and the non-finite numbers become [null]. *)
Definition stringifyElement (v : JS.value) : string :=
  match v with
  | JS.Undefined | JS.Null => "null"
  | JS.Bool true => "true"
  | JS.Bool false => "false"
  | JS.Num (JS.Fin q) => JS.NumberToString (JS.Fin q)
  | JS.Num _ => "null"
  | JS.Str s => JS.quote s
  end.

(** A property value: [None] when the property is left out ([undefined]). *)
Definition stringifyValue (v : FilterValue) : option string :=
  match v with
  | Scalar JS.Undefined => None
  | Scalar v => Some (stringifyElement v)
  | Arr xs => Some ("[" +:+ Str.join "," (map stringifyElement xs) +:+ "]")
  end.

Definition stringifyMember (e : string * FilterValue) : option string :=
  match stringifyValue e.2 with
  | Some s => Some (JS.quote e.1 +:+ ":" +:+ s)
  | None => None
  end.

Definition JSON_stringify (filters : FilterState) : string :=
  "{" +:+ Str.join "," (omap stringifyMember filters) +:+ "}".

(** The key of the partition index and of the cache. *)
Definition signature (filters : FilterState) : string := JSON_stringify filters.

(** ** Row index *)

Fixpoint indexColumns (idx : nat) (columns : list string) (index : gmap string nat)
  : gmap string nat :=
  match columns with
  | [] => index
  | name :: rest => indexColumns (S idx) rest (<[name := idx]> index)
  end.

Definition createColumnIndex (columns : list string) : gmap string nat :=
  indexColumns 0 columns ∅.

(** ** Filter engine *)

(** [value != null && value !== ''], the entries [filterRows] keeps. *)
Definition isConstraint (e : string * FilterValue) : bool :=
  match e.2 with
  | Scalar JS.Undefined | Scalar JS.Null => false
  | Scalar (JS.Str s) => negb (bool_decide (s = EmptyString))
  | _ => true
  end.

(** The callback of [entries.every]. *)
Definition matchesEntry (columnIndex : gmap string nat) (row : Row)
    (e : string * FilterValue) : bool :=
  match columnIndex !! e.1 with
  | None => true
  | Some idx =>
      let cell := cellAt row (Some idx) in
      match e.2 with
      | Arr xs => (length xs =? 0)%nat || JS.includes xs cell
      | Scalar v => JS.strictEquals v (JS.Str EmptyString) || JS.strictEquals cell v
      end
  end.

Definition filterRows (columnIndex : gmap string nat) (rows : list Row)
    (filters : FilterState) : list Row :=
  let entries := List.filter isConstraint filters in
  if (length entries =? 0)%nat then rows
  else List.filter (fun row => forallb (matchesEntry columnIndex row) entries) rows.

(** ** Pivot aggregator *)

(** An element of the array that [join] glues: [null] and [undefined] give
    the empty string. *)
Definition joinItem (v : JS.value) : string :=
  match v with
  | JS.Undefined | JS.Null => EmptyString
  | _ => JS.ToString v
  end.

Definition groupKeyOf (columnIndex : gmap string nat) (groupBy : list string)
    (row : Row) : string :=
  Str.join "¦"
    (map (fun column =>
            joinItem (JS.nullish (cellAt row (columnIndex !! column)) (JS.Str "∅")))
         groupBy).

(** [Number(row[columnIndex.get(metric.source)] || 0)]. *)
Definition metricValue (columnIndex : gmap string nat) (row : Row) (metric : Metric)
  : JS.number :=
  JS.ToNumber (JS.or (cellAt row (columnIndex !! source metric)) (JS.Num JS.zero)).

(** [bucket.values[metric.name] += ...]; reading a missing property gives
    [undefined], and [undefined + x] is [NaN]. *)
Definition accumulate (total : nat) (columnIndex : gmap string nat) (row : Row)
    (vals : gmap string JS.number) (metric : Metric) : gmap string JS.number :=
  let value := metricValue columnIndex row metric in
  <[name metric :=
      JS.add (default JS.NaN (vals !! name metric))
             (if decide (reducer metric = "avg") then JS.div value (JS.ofNat total)
              else value)]> vals.

Definition newBucket (groupKey : string) (metrics : list Metric) : PivotRow :=
  {| key := groupKey;
     values := fold_left (fun vals metric => <[name metric := JS.zero]> vals) metrics ∅;
     rows := [] |}.

(** One iteration of the loop over the rows; [table] is the [Map] from group
    key to bucket, in insertion order. *)
Definition pivotStep (total : nat) (columnIndex : gmap string nat)
    (groupBy : list string) (metrics : list Metric)
    (table : list (string * PivotRow)) (row : Row) : list (string * PivotRow) :=
  let groupKey := groupKeyOf columnIndex groupBy row in
  let bucket :=
    match getProp groupKey table with
    | Some bucket => bucket
    | None => newBucket groupKey metrics
    end in
  setProp groupKey
    {| key := key bucket;
       values := fold_left (accumulate total columnIndex row) metrics (values bucket);
       rows := rows bucket ++ [row] |}
    table.

Definition buildPivot (rows : list Row) (columnIndex : gmap string nat)
    (groupBy : list string) (metrics : list Metric) : list PivotRow :=
  map snd (fold_left (pivotStep (length rows) columnIndex groupBy metrics) rows []).

(** ** The network *)

(** What [fetch] resolves to: the [ok] flag, the outcome of
    [response.json()] ([None] when the body does not decode) and the result
    of [response.text()]. *)
Record Response (A : Type) : Type := mkResponse {
  ok : bool;
  json : option A;
  text : string;
}.
Arguments mkResponse {A} _ _ _.
Arguments ok {A} _.
Arguments json {A} _.
Arguments text {A} _.

(** The state of the world outside the store: what a request for the
    manifest and for a partition URL gives ([None]: the request itself
    fails and [fetch] rejects). *)
Record Network : Type := mkNetwork {
  fetchIndex : option (Response Metadata);
  fetchPartition : string -> option (Response Slice);
}.

(** ** Exceptions and the store monad *)

Inductive Exn : Type :=
| Error (message : string)
| FetchRejected (url : string)
| JsonSyntaxError (url : string)
| TypeError.

Inductive Result (A : Type) : Type :=
| Ok (a : A)
| Throw (e : Exn).
Arguments Ok {A} a.
Arguments Throw {A} e.

(** The variables [createDataStore] closes over, with two logs added: the
    URLs requested so far and the payloads emitted to the subscribers. *)
Record Store : Type := mkStore {
  metadata : Metadata;
  partitionsByFilter : gmap string PartitionDescriptor;
  cache : gmap string Slice;
  activeFilters : FilterState;
  fetched : list string;
  emitted : list FilterState;
}.

Definition M (A : Type) : Type := Store -> Result A * Store.

Definition ret {A : Type} (a : A) : M A := fun st => (Ok a, st).
Definition throw {A : Type} (e : Exn) : M A := fun st => (Throw e, st).
Definition bind {A B : Type} (m : M A) (k : A -> M B) : M B :=
  fun st =>
    match m st with
    | (Ok a, st') => k a st'
    | (Throw e, st') => (Throw e, st')
    end.

Notation "x <- m ;; k" := (bind m (fun x => k))
  (at level 100, m at next level, right associativity).
Notation "m ;;; k" := (bind m (fun _ => k))
  (at level 100, right associativity).

Definition gets {A : Type} (f : Store -> A) : M A := fun st => (Ok (f st), st).

Definition logFetch (url : string) : M unit := fun st =>
  (Ok tt, {| metadata := metadata st; partitionsByFilter := partitionsByFilter st;
             cache := cache st; activeFilters := activeFilters st;
             fetched := fetched st ++ [url]; emitted := emitted st |}).

Definition cacheSet (k : string) (slice : Slice) : M unit := fun st =>
  (Ok tt, {| metadata := metadata st; partitionsByFilter := partitionsByFilter st;
             cache := <[k := slice]> (cache st); activeFilters := activeFilters st;
             fetched := fetched st; emitted := emitted st |}).

Definition setActiveFilters (filters : FilterState) : M unit := fun st =>
  (Ok tt, {| metadata := metadata st; partitionsByFilter := partitionsByFilter st;
             cache := cache st; activeFilters := filters;
             fetched := fetched st; emitted := emitted st |}).

(** [emitter.emit({ filters })]: the payload is appended to the log. *)
Definition emit (payload : FilterState) : M unit := fun st =>
  (Ok tt, {| metadata := metadata st; partitionsByFilter := partitionsByFilter st;
             cache := cache st; activeFilters := activeFilters st;
             fetched := fetched st; emitted := emitted st ++ [payload] |}).

(** [Promise.all(xs.map(f))]: every call is started, in order, whatever the
    others do; the result is the array of the results, or the exception of
    the first call of the array that fails. *)
Fixpoint promiseAllMap {A B : Type} (f : A -> M B) (xs : list A) : M (list B) :=
  match xs with
  | [] => ret []
  | x :: xs' => fun st =>
      let '(r, st1) := f x st in
      let '(rs, st2) := promiseAllMap f xs' st1 in
      (match r, rs with
       | Ok b, Ok bs => Ok (b :: bs)
       | Throw e, _ => Throw e
       | Ok _, Throw e => Throw e
       end, st2)
  end.

(** ** Metadata loader and partition fetcher *)

Definition DATA_ROOT : string := "./data".

Definition indexPartitions (parts : list PartitionDescriptor)
  : gmap string PartitionDescriptor :=
  fold_left (fun index part => <[JSON_stringify (part_filters part) := part]> index)
            parts ∅.

(** [fetchMetadata], before the store exists: the result or the exception. *)
Definition fetchMetadata (net : Network)
  : Result (Metadata * gmap string PartitionDescriptor) :=
  match fetchIndex net with
  | None => Throw (FetchRejected (DATA_ROOT +:+ "/index.json"))
  | Some response =>
      if negb (ok response) then Throw (Error "Unable to load dataset metadata")
      else match json response with
           | None => Throw (JsonSyntaxError (DATA_ROOT +:+ "/index.json"))
           | Some metadata => Ok (metadata, indexPartitions (partitions metadata))
           end
  end.

(** [fetch(url, ...)] of a partition file. *)
Definition fetch (net : Network) (url : string) : M (Response Slice) :=
  logFetch url ;;;
  match fetchPartition net url with
  | Some response => ret response
  | None => throw (FetchRejected url)
  end.

(** The example CSV reader: header line, then one row per line. *)
Definition parseCsv (text : string) : M Slice :=
  match Str.split "010" (Str.trim text) with
  | header :: lines =>
      ret {| columns := Str.split "," header;
             data := map (fun line => map JS.Str (Str.split "," line)) lines |}
  | [] => throw TypeError
  end.

Definition loadPartitionSlice (net : Network) (partition : PartitionDescriptor)
    (format : string) : M Slice :=
  let url := DATA_ROOT +:+ "/" +:+ part_path partition in
  if decide (format = "json") then
    response <- fetch net url ;;
    if negb (ok response) then throw (Error ("Failed to download " +:+ url))
    else match json response with
         | Some slice => ret slice
         | None => throw (JsonSyntaxError url)
         end
  else
    response <- fetch net url ;;
    if negb (ok response) then throw (Error ("Failed to download " +:+ url))
    else parseCsv (text response).

(** ** Data store *)

Definition mergeSlices (slices : list Slice) : Slice :=
  match slices with
  | [] => {| columns := []; data := [] |}
  | first :: _ =>
      {| columns := columns first; data := concat (map data slices) |}
  end.

Definition ensurePartitions (net : Network) (filters : FilterState) : M Slice :=
  let key := JSON_stringify filters in
  c <- gets cache ;;
  (if bool_decide (is_Some (c !! key)) then ret tt
   else
     index <- gets partitionsByFilter ;;
     md <- gets metadata ;;
     match index !! key with
     | None =>
         downloads <- promiseAllMap (fun p => loadPartitionSlice net p (format md))
                                    (partitions md) ;;
         cacheSet key (mergeSlices downloads)
     | Some partition =>
         slice <- loadPartitionSlice net partition (format md) ;;
         cacheSet key slice
     end) ;;;
  c' <- gets cache ;;
  match c' !! key with
  | Some slice => ret slice
  | None => throw TypeError
  end.

Definition getRows (net : Network) (filters : FilterState)
  : M (gmap string nat * list Row) :=
  slice <- ensurePartitions net filters ;;
  let columnIndex := createColumnIndex (columns slice) in
  ret (columnIndex, filterRows columnIndex (data slice) filters).

Definition updateFilters (net : Network) (patch : FilterState)
  : M (gmap string nat * list Row) :=
  current <- gets activeFilters ;;
  setActiveFilters (spread current patch) ;;;
  filters <- gets activeFilters ;;
  emit filters ;;;
  getRows net filters.

Definition bootstrap (net : Network) : M (gmap string nat * list Row) :=
  filters <- gets activeFilters ;;
  getRows net filters.

Definition query (net : Network) (groupBy : list string) (metrics : list Metric)
  : M (list PivotRow) :=
  filters <- gets activeFilters ;;
  r <- getRows net filters ;;
  ret (buildPivot r.2 r.1 groupBy metrics).

Definition setFilters (net : Network) (nextFilters : FilterState)
  : M (gmap string nat * list Row) :=
  updateFilters net nextFilters.

Definition createDataStore (net : Network) (initialFilters : FilterState)
  : Result Store :=
  match fetchMetadata net with
  | Throw e => Throw e
  | Ok (metadata, partitionsByFilter) =>
      Ok {| metadata := metadata; partitionsByFilter := partitionsByFilter;
            cache := ∅; activeFilters := spread [] initialFilters;
            fetched := []; emitted := [] |}
  end.

(** The operations a client of the store can call, and runs of them; the
    network may answer differently at each call. *)
Inductive Op : Type :=
| Bootstrap
| Query (groupBy : list string) (metrics : list Metric)
| SetFilters (nextFilters : FilterState).

Definition runOp (net : Network) (op : Op) (st : Store) : Store :=
  match op with
  | Bootstrap => (bootstrap net st).2
  | Query groupBy metrics => (query net groupBy metrics st).2
  | SetFilters nextFilters => (setFilters net nextFilters st).2
  end.

Definition runOps (calls : list (Network * Op)) (st : Store) : Store :=
  fold_left (fun st call => runOp call.1 call.2 st) calls st.

(** ** Resolutions that overlap

    An [await] separates the test of line 138 from the [cache.set] of lines
    146 and 149, and other calls run in between.  A resolution is split at
    that point: up to it the cache is consulted and the requests are sent;
    from it on, in the store as it is by then, the slice is cached and
    returned. *)

(** A resolution at the point where it is suspended, or past it: it has
    returned (a cached signature does not wait), or it waits for its
    downloads, whose outcome it holds, to write the entry [key]. *)
Inductive Pending : Type :=
| Returned (result : Result Slice)
| AwaitingAll (key : string) (downloads : Result (list Slice))
| AwaitingOne (key : string) (download : Result Slice).

(** [ensurePartitions] up to its [await] (lines 137-143 and 148). *)
Definition startResolution (net : Network) (filters : FilterState) (st : Store)
  : Pending * Store :=
  let key := JSON_stringify filters in
  match cache st !! key with
  | Some slice => (Returned (Ok slice), st)
  | None =>
      match partitionsByFilter st !! key with
      | None =>
          let run := promiseAllMap
                       (fun p => loadPartitionSlice net p (format (metadata st)))
                       (partitions (metadata st)) st in
          (AwaitingAll key run.1, run.2)
      | Some partition =>
          let run := loadPartitionSlice net partition (format (metadata st)) st in
          (AwaitingOne key run.1, run.2)
      end
  end.

(** [return cache.get(key)]. *)
Definition cacheGet (key : string) : M Slice :=
  c <- gets cache ;;
  match c !! key with
  | Some slice => ret slice
  | None => throw TypeError
  end.

(** [ensurePartitions] from its [await] on (lines 145-146, 149 and 152). *)
Definition completeResolution (pending : Pending) : M Slice :=
  match pending with
  | Returned (Ok slice) => ret slice
  | Returned (Throw e) => throw e
  | AwaitingAll key (Ok downloads) => cacheSet key (mergeSlices downloads) ;;; cacheGet key
  | AwaitingAll _ (Throw e) => throw e
  | AwaitingOne key (Ok slice) => cacheSet key slice ;;; cacheGet key
  | AwaitingOne _ (Throw e) => throw e
  end.

(** The signature whose entry a suspended resolution will write. *)
Definition awaitedKey (pending : Pending) : option string :=
  match pending with
  | Returned _ => None
  | AwaitingAll key _ | AwaitingOne key _ => Some key
  end.

(** An operation of the store up to the [await] of its resolution;
    [setFilters] has replaced the active filters and told the subscribers
    by then. *)
Definition beginOp (net : Network) (op : Op) (st : Store) : Pending * Store :=
  match op with
  | Bootstrap | Query _ _ => startResolution net (activeFilters st) st
  | SetFilters nextFilters =>
      let st1 := (setActiveFilters (spread (activeFilters st) nextFilters) st).2 in
      let st2 := (emit (activeFilters st1) st1).2 in
      startResolution net (activeFilters st2) st2
  end.

(** What happens at a store whose calls overlap: an operation begins and
    runs up to its [await], or the resolution begun as number [task]
    resumes. *)
Inductive Event : Type :=
| Begin (net : Network) (op : Op)
| Resume (task : nat).

Definition step (w : Store * list Pending) (e : Event) : Store * list Pending :=
  match e with
  | Begin net op =>
      let run := beginOp net op w.1 in (run.2, w.2 ++ [run.1])
  | Resume task =>
      match w.2 !! task with
      | Some pending =>
          let run := completeResolution pending w.1 in
          (run.2, <[task := Returned run.1]> w.2)
      | None => w
      end
  end.

Definition schedule (events : list Event) (w : Store * list Pending)
  : Store * list Pending :=
  fold_left step events w.

(** The events of calls made one after the other, each resumed before the
    next begins; [task] is the number of resolutions begun before. *)
Fixpoint sequentially (calls : list (Network * Op)) (task : nat) : list Event :=
  match calls with
  | [] => []
  | call :: calls' => Begin call.1 call.2 :: Resume task :: sequentially calls' (S task)
  end.

(** ** Vocabulary of the properties *)

(** A filter value that constrains nothing: absent ([undefined]), [null],
    the empty string or the empty sequence. *)
Definition isEmptyValue (v : FilterValue) : bool :=
  match v with
  | Scalar JS.Undefined | Scalar JS.Null => true
  | Scalar (JS.Str s) => bool_decide (s = EmptyString)
  | Arr [] => true
  | _ => false
  end.

(** ** The accumulation of the aggregator in binary64

    JavaScript's numbers are IEEE 754 doubles.  [Double] evaluates what one
    bucket accumulates for one metric (lines 116-121) with binary64
    arithmetic, each operation rounded to nearest as the language does. *)
Module Double.

(** The double of an integer; exact up to 2^53 in absolute value. *)
Definition ofZ (z : Z) : PrimFloat.float :=
  if z <? 0 then PrimFloat.opp (PrimFloat.of_uint63 (Uint63.of_Z (- z)))
  else PrimFloat.of_uint63 (Uint63.of_Z z).




End Double.

(** What one row adds to the value of a metric in its bucket. *)
Definition contribution (total : nat) (columnIndex : gmap string nat)
    (metric : Metric) (row : Row) : JS.number :=
  if decide (reducer metric = "avg")
  then JS.div (metricValue columnIndex row metric) (JS.ofNat total)
  else metricValue columnIndex row metric.

(** The sum of the numeric values of a column over some rows, from left to
    right. *)
Definition sumOf (columnIndex : gmap string nat) (metric : Metric)
    (rs : list Row) : JS.number :=
  fold_left (fun acc row => JS.add acc (metricValue columnIndex row metric)) rs JS.zero.

(** The rows of a group, in the order of the input. *)
Definition groupRows (columnIndex : gmap string nat) (groupBy : list string)
    (groupKey : string) (rs : list Row) : list Row :=
  List.filter (fun row => bool_decide (groupKeyOf columnIndex groupBy row = groupKey)) rs.

(** The [values] object of a bucket when it is created, and after the rows
    [rs] have been added to it. *)
Definition initialValues (metrics : list Metric) : gmap string JS.number :=
  fold_left (fun vals metric => <[name metric := JS.zero]> vals) metrics ∅.

Definition valuesAfter (total : nat) (columnIndex : gmap string nat)
    (metrics : list Metric) (rs : list Row) : gmap string JS.number :=
  fold_left (fun vals row => fold_left (accumulate total columnIndex row) metrics vals)
            rs (initialValues metrics).

(** The state of the pivot table once the rows [seen] have been processed:
    one bucket per group key met, holding the rows of that group in input
    order and the values accumulated over them. *)
Definition pivotInv (total : nat) (columnIndex : gmap string nat)
    (groupBy : list string) (metrics : list Metric)
    (seen : list Row) (table : list (string * PivotRow)) : Prop :=
  NoDup (map fst table) /\
  (forall row, In row seen ->
     is_Some (getProp (groupKeyOf columnIndex groupBy row) table)) /\
  (forall k b, getProp k table = Some b ->
     key b = k /\
     rows b = groupRows columnIndex groupBy k seen /\
     rows b <> [] /\
     values b = valuesAfter total columnIndex metrics (rows b)).

(** The URL [loadPartitionSlice] requests for a partition. *)
Definition partitionUrl (partition : PartitionDescriptor) : string :=
  DATA_ROOT +:+ "/" +:+ part_path partition.

(** The store after the URLs [urls] have been requested, and after a slice
    has been cached. *)
Definition logged (urls : list string) (st : Store) : Store :=
  {| metadata := metadata st; partitionsByFilter := partitionsByFilter st;
     cache := cache st; activeFilters := activeFilters st;
     fetched := fetched st ++ urls; emitted := emitted st |}.

Definition cached (k : string) (slice : Slice) (st : Store) : Store :=
  {| metadata := metadata st; partitionsByFilter := partitionsByFilter st;
     cache := <[k := slice]> (cache st); activeFilters := activeFilters st;
     fetched := fetched st; emitted := emitted st |}.

(** The number of rows of a list of slices. *)
Definition rowCount (slices : list Slice) : nat :=
  fold_right (fun slice n => (length (data slice) + n)%nat) 0%nat slices.

(** An operation that is rejected and leaves the cache as it was. *)
Definition rejectsKeepingCache {A : Type} (m : M A) (st : Store) : Prop :=
  exists e st', m st = (Throw e, st') /\ cache st' = cache st.

(** Two filter objects with the same properties, whatever their order. *)
Definition sameMapping (f g : FilterState) : Prop :=
  NoDup (map fst f) /\ NoDup (map fst g) /\ forall k, getProp k f = getProp k g.

(** The properties [JSON.stringify] writes: those whose value is not
    [undefined]. *)
Definition written (f : FilterState) : FilterState :=
  List.filter (fun e => bool_decide (e.2 <> Scalar JS.Undefined)) f.

(** ** Sample data

    A slice with a store, a targeting type and a spend column, as the
    dashboard loads it. *)
Definition sampleColumns : list string := ["store"; "targetingType"; "spend"].

Definition sampleRows : list Row :=
  [ [JS.Str "A"; JS.Str "auto"; JS.Num (JS.ofZ 2)];
    [JS.Str "A"; JS.Str "manual"; JS.Num (JS.ofZ 4)];
    [JS.Str "B"; JS.Str "auto"; JS.Num (JS.ofZ 6)] ].

Definition sampleIndex : gmap string nat := createColumnIndex sampleColumns.

(** ** Filter engine: proofs *)

Section FilterEngine.

Variable columnIndex : gmap string nat.

Lemma filter_all {A : Type} (p : A -> bool) (l : list A) :
  (forall x, In x l -> p x = true) -> List.filter p l = l.
Proof.
  induction l as [|x l IH]; simpl; intros H; [reflexivity|].
  rewrite (H x (or_introl eq_refl)). f_equal. apply IH. intros y Hy.
  apply H. now right.
Qed.

Lemma empty_value_matches (row : Row) (e : string * FilterValue) :
  isEmptyValue e.2 = true -> isConstraint e = true ->
  matchesEntry columnIndex row e = true.
Proof.
  destruct e as [column v]. unfold isConstraint, matchesEntry. simpl.
  intros Hempty Hc. destruct (columnIndex !! column); [|reflexivity].
  destruct v as [[| |b|num|s]|[|x xs]]; simpl in *; try discriminate; try reflexivity.
  rewrite Hempty in Hc. discriminate.
Qed.

(** C7. Under a filter state whose values are all empty, null or absent,
    [filterRows] returns its input: the same rows in the same order. *)
Theorem filterRows_unconstrained (rows : list Row) (filters : FilterState) :
  forallb (fun e => isEmptyValue e.2) filters = true ->
  filterRows columnIndex rows filters = rows.
Proof.
  intros Hall. unfold filterRows.
  destruct (length (List.filter isConstraint filters) =? 0)%nat; [reflexivity|].
  apply filter_all. intros row _. apply forallb_forall. intros e He.
  apply filter_In in He as [Hin Hc].
  apply empty_value_matches; [|exact Hc].
  rewrite forallb_forall in Hall. exact (Hall e Hin).
Qed.

Lemma matchesEntry_unknown_column (row : Row) (column : string) (v : FilterValue) :
  columnIndex !! column = None -> matchesEntry columnIndex row (column, v) = true.
Proof. intros H. unfold matchesEntry. simpl. now rewrite H. Qed.

Lemma filter_agree {A : Type} (p q : A -> bool) (l : list A) :
  (forall x, p x = q x) -> List.filter p l = List.filter q l.
Proof.
  intros H. induction l as [|x l IH]; simpl; [reflexivity|].
  rewrite H, IH. reflexivity.
Qed.

(** C8. A constraint on a column the row index does not know accepts every
    row, and [filterRows] gives the same rows with and without it. *)
Theorem filterRows_fail_open (column : string) (v : FilterValue)
    (rows : list Row) (before after : FilterState) :
  columnIndex !! column = None ->
  (forall row, matchesEntry columnIndex row (column, v) = true) /\
  filterRows columnIndex rows (before ++ (column, v) :: after)
  = filterRows columnIndex rows (before ++ after).
Proof.
  intros Hnone. split; [intros row; now apply matchesEntry_unknown_column|].
  unfold filterRows. rewrite !List.filter_app. simpl.
  destruct (isConstraint (column, v)) eqn:Hc; [|reflexivity].
  set (e1 := List.filter isConstraint before).
  set (e2 := List.filter isConstraint after).
  assert (Hagree : forall row,
    forallb (matchesEntry columnIndex row) (e1 ++ (column, v) :: e2)
    = forallb (matchesEntry columnIndex row) (e1 ++ e2)).
  { intros row. rewrite !forallb_app. simpl.
    now rewrite matchesEntry_unknown_column. }
  rewrite (filter_agree _ _ rows Hagree).
  replace (length (e1 ++ (column, v) :: e2) =? 0)%nat with false
    by (symmetry; apply Nat.eqb_neq; rewrite length_app; simpl; lia).
  destruct (length (e1 ++ e2) =? 0)%nat eqn:Hlen; [|reflexivity].
  apply Nat.eqb_eq in Hlen. apply length_zero_iff_nil in Hlen. rewrite Hlen.
  simpl. apply filter_all. reflexivity.
Qed.

Lemma includes_In (xs : list JS.value) (x : JS.value) :
  JS.includes xs x = true <-> In x xs.
Proof.
  unfold JS.includes, JS.sameValueZero. rewrite existsb_exists. split.
  - intros [y [Hy Heq]]. apply bool_decide_eq_true in Heq. now subst.
  - intros H. exists x. split; [exact H|]. now apply bool_decide_eq_true.
Qed.

(** C9. On a column of the schema, a row matches a sequence-valued
    constraint exactly when the sequence is empty or holds the row's cell;
    so [filterRows] under that one constraint keeps exactly those rows. *)
Theorem sequence_constraint_matches (column : string) (idx : nat)
    (xs : list JS.value) (row : Row) (rows : list Row) :
  columnIndex !! column = Some idx ->
  (matchesEntry columnIndex row (column, Arr xs) = true
   <-> xs = [] \/ In (cellAt row (Some idx)) xs) /\
  (In row (filterRows columnIndex rows [(column, Arr xs)])
   <-> In row rows /\ (xs = [] \/ In (cellAt row (Some idx)) xs)).
Proof.
  intros Hidx.
  assert (Hm : forall r, matchesEntry columnIndex r (column, Arr xs) = true
                         <-> xs = [] \/ In (cellAt r (Some idx)) xs).
  { intros r. unfold matchesEntry. simpl fst. simpl snd. rewrite Hidx.
    rewrite orb_true_iff, includes_In, Nat.eqb_eq, length_zero_iff_nil.
    reflexivity. }
  split; [apply Hm|].
  unfold filterRows. simpl. rewrite filter_In, andb_true_r. now rewrite Hm.
Qed.

End FilterEngine.

(** ** Objects as entry lists: proofs *)

Section Props.

Context {A : Type}.
Implicit Types (obj : list (string * A)) (k : string) (v : A).

Lemma getProp_setProp_eq k v obj : getProp k (setProp k v obj) = Some v.
Proof.
  induction obj as [|[k' v'] obj IH]; simpl.
  - now rewrite decide_True.
  - destruct (decide (k' = k)) as [->|Hne]; simpl.
    + now rewrite decide_True.
    + now rewrite decide_False.
Qed.

Lemma getProp_setProp_ne k k' v obj :
  k <> k' -> getProp k' (setProp k v obj) = getProp k' obj.
Proof.
  intros Hne. induction obj as [|[k0 v0] obj IH]; simpl.
  - now rewrite decide_False.
  - destruct (decide (k0 = k)) as [->|Hne0]; simpl.
    + now rewrite !decide_False.
    + now rewrite IH.
Qed.

Lemma getProp_None_keys k obj : getProp k obj = None <-> k ∉ map fst obj.
Proof.
  induction obj as [|[k0 v0] obj IH]; simpl.
  - split; [intros _; apply not_elem_of_nil|reflexivity].
  - rewrite not_elem_of_cons.
    destruct (decide (k0 = k)) as [->|Hne]; [split; [discriminate|tauto]|].
    rewrite IH. split; [intros H; split; [congruence|exact H]|tauto].
Qed.

Lemma setProp_keys k v obj :
  map fst (setProp k v obj)
  = if bool_decide (k ∈ map fst obj) then map fst obj else map fst obj ++ [k].
Proof.
  induction obj as [|[k0 v0] obj IH]; cbn [setProp map fst].
  - rewrite bool_decide_eq_false_2; [reflexivity|apply not_elem_of_nil].
  - destruct (decide (k0 = k)) as [->|Hne]; cbn [map fst].
    + rewrite bool_decide_eq_true_2; [reflexivity|apply elem_of_cons; now left].
    + rewrite IH. destruct (bool_decide (k ∈ map fst obj)) eqn:Hin.
      * apply bool_decide_eq_true in Hin.
        rewrite bool_decide_eq_true_2; [reflexivity|apply elem_of_cons; now right].
      * apply bool_decide_eq_false in Hin.
        rewrite bool_decide_eq_false_2; [reflexivity|].
        rewrite not_elem_of_cons. split; [congruence|exact Hin].
Qed.

Lemma setProp_NoDup k v obj : NoDup (map fst obj) -> NoDup (map fst (setProp k v obj)).
Proof.
  intros Hnd. rewrite setProp_keys.
  destruct (bool_decide (k ∈ map fst obj)) eqn:Hin; [exact Hnd|].
  apply bool_decide_eq_false in Hin. apply NoDup_app. split; [exact Hnd|]. split.
  - intros x Hx Hk. apply list_elem_of_singleton in Hk. now subst.
  - apply NoDup_singleton.
Qed.

Lemma In_getProp k v obj :
  NoDup (map fst obj) -> In (k, v) obj -> getProp k obj = Some v.
Proof.
  induction obj as [|[k0 v0] obj IH]; simpl; [tauto|].
  intros Hnd [Heq|Hin].
  - inversion Heq; subst. now rewrite decide_True.
  - apply NoDup_cons in Hnd as [Hnotin Hnd].
    destruct (decide (k0 = k)) as [->|Hne]; [|now apply IH].
    exfalso. apply Hnotin. apply list_elem_of_In.
    change k with (fst (k, v)). now apply in_map.
Qed.

Lemma getProp_In k v obj : getProp k obj = Some v -> In (k, v) obj.
Proof.
  induction obj as [|[k0 v0] obj IH]; simpl; [discriminate|].
  destruct (decide (k0 = k)) as [->|Hne].
  - intros [= ->]. now left.
  - intros H. right. now apply IH.
Qed.

End Props.

(** ** Pivot aggregator: proofs *)

Section PivotAggregator.

Variables (total : nat) (columnIndex : gmap string nat).
Variables (groupBy : list string) (metrics : list Metric).

Lemma initialValues_lookup (ms : list Metric) (vals : gmap string JS.number) (k : string) :
  fold_left (fun vals metric => <[name metric := JS.zero]> vals) ms vals !! k
  = if bool_decide (k ∈ map name ms) then Some JS.zero else vals !! k.
Proof.
  revert vals. induction ms as [|m ms IH]; intros vals; cbn [fold_left map].
  - rewrite bool_decide_eq_false_2; [reflexivity|apply not_elem_of_nil].
  - rewrite IH. destruct (bool_decide (k ∈ map name ms)) eqn:Hin.
    + apply bool_decide_eq_true in Hin.
      rewrite bool_decide_eq_true_2; [reflexivity|apply elem_of_cons; now right].
    + apply bool_decide_eq_false in Hin.
      destruct (decide (k = name m)) as [->|Hne].
      * rewrite lookup_insert_eq.
        rewrite bool_decide_eq_true_2; [reflexivity|apply elem_of_cons; now left].
      * rewrite lookup_insert_ne by congruence.
        rewrite bool_decide_eq_false_2; [reflexivity|].
        rewrite not_elem_of_cons. now split.
Qed.

Lemma accumulate_other (row : Row) (ms : list Metric) (vals : gmap string JS.number)
    (k : string) :
  k ∉ map name ms ->
  fold_left (accumulate total columnIndex row) ms vals !! k = vals !! k.
Proof.
  revert vals. induction ms as [|m ms IH]; intros vals Hk; cbn [fold_left]; [reflexivity|].
  cbn [map] in Hk. apply not_elem_of_cons in Hk as [Hne Hk].
  rewrite IH by exact Hk. unfold accumulate. now rewrite lookup_insert_ne by congruence.
Qed.

Lemma accumulate_lookup (row : Row) (ms : list Metric) (vals : gmap string JS.number)
    (m : Metric) :
  NoDup (map name ms) -> m ∈ ms ->
  fold_left (accumulate total columnIndex row) ms vals !! name m
  = Some (JS.add (default JS.NaN (vals !! name m)) (contribution total columnIndex m row)).
Proof.
  revert vals. induction ms as [|m0 ms IH]; intros vals Hnd Hin.
  - now apply elem_of_nil in Hin.
  - cbn [map] in Hnd. apply NoDup_cons in Hnd as [Hfresh Hnd]. cbn [fold_left].
    apply elem_of_cons in Hin as [->|Hin].
    + rewrite accumulate_other by exact Hfresh. unfold accumulate, contribution.
      now rewrite lookup_insert_eq.
    + rewrite IH by assumption. f_equal. f_equal. f_equal.
      unfold accumulate. rewrite lookup_insert_ne; [reflexivity|].
      intros Heq. apply Hfresh. rewrite Heq. now apply list_elem_of_fmap_2.
Qed.

Lemma rows_fold_lookup (rs : list Row) (vals : gmap string JS.number) (m : Metric)
    (acc : JS.number) :
  NoDup (map name metrics) -> m ∈ metrics ->
  vals !! name m = Some acc ->
  fold_left (fun vals row => fold_left (accumulate total columnIndex row) metrics vals)
            rs vals !! name m
  = Some (fold_left (fun acc row => JS.add acc (contribution total columnIndex m row))
                    rs acc).
Proof.
  intros Hnd Hin. revert vals acc.
  induction rs as [|r rs IH]; intros vals acc Hacc; cbn [fold_left]; [exact Hacc|].
  apply IH. rewrite accumulate_lookup by assumption. now rewrite Hacc.
Qed.

(** The value of a metric in a bucket is the left-to-right sum of what each
    of its rows contributes. *)
Lemma valuesAfter_lookup (rs : list Row) (m : Metric) :
  NoDup (map name metrics) -> m ∈ metrics ->
  valuesAfter total columnIndex metrics rs !! name m
  = Some (fold_left (fun acc row => JS.add acc (contribution total columnIndex m row))
                    rs JS.zero).
Proof.
  intros Hnd Hin. unfold valuesAfter. apply rows_fold_lookup; [assumption..|].
  unfold initialValues. rewrite initialValues_lookup.
  rewrite bool_decide_eq_true_2; [reflexivity|now apply list_elem_of_fmap_2].
Qed.

Lemma groupRows_snoc (k : string) (seen : list Row) (row : Row) :
  groupRows columnIndex groupBy k (seen ++ [row])
  = groupRows columnIndex groupBy k seen
    ++ (if bool_decide (groupKeyOf columnIndex groupBy row = k) then [row] else []).
Proof. unfold groupRows. now rewrite List.filter_app. Qed.

Lemma groupRows_unseen (k : string) (seen : list Row) :
  (forall row, In row seen -> groupKeyOf columnIndex groupBy row <> k) ->
  groupRows columnIndex groupBy k seen = [].
Proof.
  intros H. unfold groupRows. induction seen as [|r seen IH]; [reflexivity|].
  cbn [List.filter]. rewrite bool_decide_eq_false_2 by (apply H; now left).
  apply IH. intros row Hrow. apply H. now right.
Qed.

Lemma pivotInv_nil : pivotInv total columnIndex groupBy metrics [] [].
Proof.
  split; [apply NoDup_nil_2|]. split; [intros row []|]. intros k b. discriminate.
Qed.

Lemma pivotInv_step (seen : list Row) (table : list (string * PivotRow)) (row : Row) :
  pivotInv total columnIndex groupBy metrics seen table ->
  pivotInv total columnIndex groupBy metrics (seen ++ [row])
           (pivotStep total columnIndex groupBy metrics table row).
Proof.
  intros (Hnd & Hcover & Hbuckets). unfold pivotStep.
  set (k0 := groupKeyOf columnIndex groupBy row).
  split; [now apply setProp_NoDup|]. split.
  - intros r Hr. apply in_app_iff in Hr as [Hr|[<-|[]]].
    + destruct (decide (k0 = groupKeyOf columnIndex groupBy r)) as [<-|Hne].
      * rewrite getProp_setProp_eq. eauto.
      * rewrite getProp_setProp_ne by exact Hne. now apply Hcover.
    + fold k0. rewrite getProp_setProp_eq. eauto.
  - intros k b. destruct (decide (k0 = k)) as [<-|Hne].
    + rewrite getProp_setProp_eq. intros [= <-]. cbn [key rows values].
      rewrite groupRows_snoc. fold k0. rewrite bool_decide_eq_true_2 by reflexivity.
      destruct (getProp k0 table) as [b0|] eqn:Hget.
      * destruct (Hbuckets k0 b0 Hget) as (Hkey & Hrows & _ & Hvals).
        split; [exact Hkey|]. split; [now rewrite Hrows|].
        split; [now destruct (rows b0)|].
        rewrite Hvals. unfold valuesAfter. now rewrite fold_left_app.
      * cbn [newBucket key rows values].
        split; [reflexivity|]. split.
        { rewrite groupRows_unseen; [reflexivity|].
          intros r Hr Heq. destruct (Hcover r Hr) as [b1 Hb1].
          rewrite Heq in Hb1. congruence. }
        split; [discriminate|]. reflexivity.
    + rewrite getProp_setProp_ne by exact Hne. intros Hget.
      destruct (Hbuckets k b Hget) as (Hkey & Hrows & Hne' & Hvals).
      split; [exact Hkey|]. split; [|split; assumption].
      rewrite groupRows_snoc. fold k0. rewrite bool_decide_eq_false_2 by exact Hne.
      now rewrite app_nil_r.
Qed.

Lemma pivotInv_fold (rest seen : list Row) (table : list (string * PivotRow)) :
  pivotInv total columnIndex groupBy metrics seen table ->
  pivotInv total columnIndex groupBy metrics (seen ++ rest)
           (fold_left (pivotStep total columnIndex groupBy metrics) rest table).
Proof.
  revert seen table. induction rest as [|r rest IH]; intros seen table Hinv.
  - now rewrite app_nil_r.
  - cbn [fold_left]. replace (seen ++ r :: rest) with ((seen ++ [r]) ++ rest)
      by now rewrite <- app_assoc.
    apply IH. now apply pivotInv_step.
Qed.

End PivotAggregator.

(** Every bucket [buildPivot] returns holds the rows of its group, in input
    order, and the values accumulated over them. *)
Lemma buildPivot_bucket (rs : list Row) (columnIndex : gmap string nat)
    (groupBy : list string) (metrics : list Metric) (b : PivotRow) :
  In b (buildPivot rs columnIndex groupBy metrics) ->
  rows b = groupRows columnIndex groupBy (key b) rs /\
  rows b <> [] /\
  values b = valuesAfter (length rs) columnIndex metrics (rows b).
Proof.
  unfold buildPivot. intros Hin. apply in_map_iff in Hin as [[k b'] [Heq Hin]].
  simpl in Heq. subst b'.
  destruct (pivotInv_fold (length rs) columnIndex groupBy metrics rs [] []
              (pivotInv_nil _ _ _ _)) as (Hnd & _ & Hbuckets).
  cbn [app] in Hbuckets.
  destruct (Hbuckets k b (In_getProp k b _ Hnd Hin)) as (Hkey & Hrows & Hne & Hvals).
  subst k. auto.
Qed.

(** ** Arithmetic on numbers: proofs *)

Section Numbers.

Import JS.

Lemma Fin_eq (a b : Qc) : (this a == this b)%Q -> Fin a = Fin b.
Proof. intros H. f_equal. now apply Qc_is_canon. Qed.

Lemma add_zero_zero : add zero zero = zero.
Proof. reflexivity. Qed.

Lemma fold_add_zero (rs : list Row) :
  fold_left (fun acc (_ : Row) => add acc zero) rs zero = zero.
Proof.
  induction rs as [|r rs IH]; cbn [fold_left]; [reflexivity|].
  now rewrite add_zero_zero.
Qed.

End Numbers.

(** ** Pivot aggregator: the reducers *)

Lemma fold_left_agree {A B : Type} (f g : A -> B -> A) (l : list B) (a : A) :
  (forall a x, f a x = g a x) -> fold_left f l a = fold_left g l a.
Proof.
  intros H. revert a. induction l as [|x l IH]; intros a; cbn [fold_left]; [reflexivity|].
  now rewrite H, IH.
Qed.

Lemma buildPivot_nonempty (rs : list Row) (columnIndex : gmap string nat)
    (groupBy : list string) (metrics : list Metric) (b : PivotRow) :
  In b (buildPivot rs columnIndex groupBy metrics) -> (0 < length rs)%nat.
Proof. destruct rs; simpl; [tauto|lia]. Qed.

(** The value of a metric with unique name, in any bucket [buildPivot]
    returns. *)
Lemma buildPivot_value (rs : list Row) (columnIndex : gmap string nat)
    (groupBy : list string) (metrics : list Metric) (m : Metric) (b : PivotRow) :
  NoDup (map name metrics) -> In m metrics ->
  In b (buildPivot rs columnIndex groupBy metrics) ->
  values b !! name m
  = Some (fold_left (fun acc row => JS.add acc (contribution (length rs) columnIndex m row))
                    (rows b) JS.zero).
Proof.
  intros Hnd Hm Hb. destruct (buildPivot_bucket _ _ _ _ _ Hb) as (_ & _ & Hvals).
  rewrite Hvals. apply valuesAfter_lookup; [exact Hnd|now apply list_elem_of_In].
Qed.


(** A cell that is missing or falsy counts for zero. *)
Lemma metricValue_falsy (columnIndex : gmap string nat) (row : Row) (m : Metric) :
  JS.ToBoolean (cellAt row (columnIndex !! source m)) = false ->
  metricValue columnIndex row m = JS.zero.
Proof. intros H. unfold metricValue, JS.or. now rewrite H. Qed.

Lemma metricValue_unknown_column (columnIndex : gmap string nat) (row : Row) (m : Metric) :
  columnIndex !! source m = None -> metricValue columnIndex row m = JS.zero.
Proof. intros H. apply metricValue_falsy. now rewrite H. Qed.

(** A non-empty string cell counts for what [StringToNumber] reads in it. *)
Lemma metricValue_string (columnIndex : gmap string nat) (row : Row) (m : Metric)
    (s : string) :
  cellAt row (columnIndex !! source m) = JS.Str s -> s <> EmptyString ->
  metricValue columnIndex row m = JS.StringToNumber s.
Proof.
  intros Hcell Hs. unfold metricValue, JS.or. rewrite Hcell. simpl.
  now rewrite bool_decide_eq_false_2.
Qed.

(** C3, as the code has it. With a reducer other than [avg], every row of a
    group adds [Number(cell || 0)]: the value of the group is the sum of
    these over its rows; a missing or falsy cell counts for 0 and a string
    cell for its numeric reading, which is [NaN] for a string that is not a
    numeric literal. Rows with x-values 1, 2, 3 in one group give 6. *)
Theorem sum_adds_coerced_cells (rs : list Row) (columnIndex : gmap string nat)
    (groupBy : list string) (metrics : list Metric) (m : Metric) (b : PivotRow) :
  NoDup (map name metrics) -> In m metrics -> reducer m <> "avg" ->
  In b (buildPivot rs columnIndex groupBy metrics) ->
  rows b = groupRows columnIndex groupBy (key b) rs /\
  values b !! name m = Some (sumOf columnIndex m (rows b)) /\
  (forall row, JS.ToBoolean (cellAt row (columnIndex !! source m)) = false ->
               metricValue columnIndex row m = JS.zero) /\
  (forall row s, cellAt row (columnIndex !! source m) = JS.Str s -> s <> EmptyString ->
                 metricValue columnIndex row m = JS.StringToNumber s) /\
  JS.StringToNumber "abc" = JS.NaN /\
  (map (fun b => values b !! "total")
       (buildPivot [[JS.Num (JS.ofZ 1)]; [JS.Num (JS.ofZ 2)]; [JS.Num (JS.ofZ 3)]]
                   (createColumnIndex ["x"]) [] [mkMetric "total" "x" "sum"])
   = [Some (JS.ofZ 6)]).
Proof.
  intros Hnd Hm Hsum Hb.
  destruct (buildPivot_bucket _ _ _ _ _ Hb) as (Hrows & _ & _).
  pose proof (buildPivot_value _ _ _ _ _ _ Hnd Hm Hb) as Hval.
  unfold contribution in Hval.
  split; [exact Hrows|]. split.
  { rewrite Hval. f_equal. unfold sumOf. apply fold_left_agree. intros acc row.
    now rewrite decide_False by exact Hsum. }
  split; [intros row; apply metricValue_falsy|].
  split; [intros row s; apply metricValue_string|].
  split; [reflexivity|].
  vm_compute. reflexivity.
Qed.

(** C10. A metric that is summed over a column the row index does not know
    has value 0 in every group: each row counts for 0 and nothing fails. *)
Theorem unknown_source_sums_to_zero (rs : list Row) (columnIndex : gmap string nat)
    (groupBy : list string) (metrics : list Metric) (m : Metric) (b : PivotRow) :
  NoDup (map name metrics) -> In m metrics -> reducer m <> "avg" ->
  columnIndex !! source m = None ->
  In b (buildPivot rs columnIndex groupBy metrics) ->
  values b !! name m = Some JS.zero.
Proof.
  intros Hnd Hm Hsum Hnone Hb.
  rewrite (buildPivot_value _ _ _ _ _ _ Hnd Hm Hb). f_equal.
  etrans; [|apply (fold_add_zero (rows b))]. apply fold_left_agree. intros acc row.
  unfold contribution. rewrite decide_False by exact Hsum.
  now rewrite metricValue_unknown_column.
Qed.

(** ** The filter engine and the aggregator on the sample data *)

Lemma filterRows_unconstrained_sample :
  filterRows sampleIndex sampleRows
    [("store", Scalar JS.Null); ("date", Scalar (JS.Str EmptyString));
     ("targetingType", Arr []); ("asin", Scalar JS.Undefined)]
  = sampleRows.
Proof. apply filterRows_unconstrained. reflexivity. Defined.

Lemma filterRows_fail_open_sample :
  filterRows sampleIndex sampleRows
    ([("store", Scalar (JS.Str "A"))] ++ [("region", Scalar (JS.Str "EU"))])
  = filterRows sampleIndex sampleRows ([("store", Scalar (JS.Str "A"))] ++ []).
Proof.
  apply (proj2 (filterRows_fail_open sampleIndex "region" (Scalar (JS.Str "EU"))
                  sampleRows [("store", Scalar (JS.Str "A"))] [] eq_refl)).
Defined.

Lemma sequence_constraint_sample :
  matchesEntry sampleIndex [JS.Str "A"; JS.Str "auto"; JS.Num (JS.ofZ 2)]
    ("store", Arr [JS.Str "C"; JS.Str "A"]) = true.
Proof.
  apply (proj1 (sequence_constraint_matches sampleIndex "store" 0
                  [JS.Str "C"; JS.Str "A"] _ sampleRows eq_refl)).
  right. right. left. reflexivity.
Defined.

Definition spendAvg : Metric := mkMetric "Spend" "spend" "avg".
Definition spendSum : Metric := mkMetric "Spend" "spend" "sum".
Definition clicksSum : Metric := mkMetric "Clicks" "clicks" "sum".

(** The bucket of store A in the pivot of the sample rows by store. *)
Definition storeA (metrics : list Metric) : PivotRow :=
  nth 0 (buildPivot sampleRows sampleIndex ["store"] metrics) (newBucket EmptyString []).

Lemma storeA_bucket (metrics : list Metric) :
  In (storeA metrics) (buildPivot sampleRows sampleIndex ["store"] metrics).
Proof. left. reflexivity. Qed.

Lemma NoDup_two (a b : string) : a <> b -> NoDup [a; b].
Proof.
  intros Hne. apply NoDup_cons. split; [|apply NoDup_singleton].
  intros H. apply list_elem_of_singleton in H. contradiction.
Qed.


Lemma sum_sample :
  values (storeA [spendSum; clicksSum]) !! "Spend"
  = Some (sumOf sampleIndex spendSum (rows (storeA [spendSum; clicksSum]))).
Proof.
  apply (sum_adds_coerced_cells sampleRows sampleIndex ["store"]
           [spendSum; clicksSum] spendSum (storeA [spendSum; clicksSum])).
  - apply NoDup_two. discriminate.
  - left. reflexivity.
  - discriminate.
  - apply storeA_bucket.
Defined.

Lemma unknown_source_sample :
  values (storeA [spendSum; clicksSum]) !! "Clicks" = Some JS.zero.
Proof.
  apply (unknown_source_sums_to_zero sampleRows sampleIndex ["store"]
           [spendSum; clicksSum] clicksSum (storeA [spendSum; clicksSum])).
  - apply NoDup_two. discriminate.
  - right. left. reflexivity.
  - discriminate.
  - reflexivity.
  - apply storeA_bucket.
Defined.

(** The average of store A is 2, a third of 2 + 4, and not the mean 3 of its
    own two rows. *)
Example avg_is_not_the_group_mean :
  values (storeA [spendAvg]) !! "Spend" = Some (JS.ofZ 2) /\
  length (rows (storeA [spendAvg])) = 2%nat /\
  sumOf sampleIndex spendAvg (rows (storeA [spendAvg])) = JS.ofZ 6.
Proof.
  split; [|split].
  - vm_compute. f_equal. now apply Fin_eq.
  - reflexivity.
  - vm_compute. now apply Fin_eq.
Qed.




(** The claim C3 as it was stated fails: a cell holding a string that is not
    a numeric literal counts for [NaN], not for 0, and so does the sum. *)
Lemma sum_of_non_numeric_cell_is_NaN :
  metricValue (createColumnIndex ["x"]) [JS.Str "abc"] (mkMetric "total" "x" "sum")
  <> JS.zero /\
  map (fun b => values b !! "total")
      (buildPivot [[JS.Str "abc"]; [JS.Num (JS.ofZ 1)]] (createColumnIndex ["x"]) []
                  [mkMetric "total" "x" "sum"])
  = [Some JS.NaN].
Proof. split; [discriminate|reflexivity]. Qed.

(** ** Signatures: [JSON.stringify] reads back *)

Section Quoting.

Import JS.

Lemma app_cons (c : ascii) (s t : string) : String c s +:+ t = String c (s +:+ t).
Proof. reflexivity. Qed.

Lemma app_nil (t : string) : EmptyString +:+ t = t.
Proof. reflexivity. Qed.

Lemma app_assoc_s (s t u : string) : (s +:+ t) +:+ u = s +:+ (t +:+ u).
Proof. induction s as [|c s IH]; [reflexivity|]. rewrite !app_cons. now rewrite IH. Qed.

(** The character an escape sequence stands for, and what follows it. *)
Definition readChar (t : string) : option (ascii * string) :=
  match t with
  | EmptyString => None
  | String c r =>
      if decide (c = Str.bslash) then
        match r with
        | String x r' =>
            if decide (x = Str.dquote) then Some (Str.dquote, r')
            else if decide (x = Str.bslash) then Some (Str.bslash, r')
            else if decide (x = "b"%char) then Some (Str.chr 8, r')
            else if decide (x = "t"%char) then Some (Str.chr 9, r')
            else if decide (x = "n"%char) then Some (Str.chr 10, r')
            else if decide (x = "f"%char) then Some (Str.chr 12, r')
            else if decide (x = "r"%char) then Some (Str.chr 13, r')
            else match r' with
                 | String _ (String _ (String h (String l r''))) =>
                     match digitValue 16 h, digitValue 16 l with
                     | Some a, Some b => Some (Str.chr (16 * a + b), r'')
                     | _, _ => None
                     end
                 | _ => None
                 end
        | EmptyString => None
        end
      else Some (c, r)
  end.

Lemma readChar_escapeChar (c : ascii) (r : string) :
  readChar (escapeChar c +:+ r) = Some (c, r).
Proof. destruct c as [[] [] [] [] [] [] [] []]; reflexivity. Qed.

Lemma escapeChar_not_quote (c : ascii) (r r' : string) :
  escapeChar c +:+ r <> String Str.dquote r'.
Proof. destruct c as [[] [] [] [] [] [] [] []]; discriminate. Qed.

Lemma escape_inj (s1 s2 r1 r2 : string) :
  escape s1 +:+ String Str.dquote r1 = escape s2 +:+ String Str.dquote r2 ->
  s1 = s2 /\ r1 = r2.
Proof.
  revert s2. induction s1 as [|c1 s1 IH]; intros [|c2 s2]; cbn [escape];
    rewrite ?app_nil, ?app_assoc_s.
  - intros [= ->]. now split.
  - intros H. symmetry in H. now apply escapeChar_not_quote in H.
  - intros H. now apply escapeChar_not_quote in H.
  - intros H. pose proof (f_equal readChar H) as Hc.
    rewrite !readChar_escapeChar in Hc. injection Hc as -> Hrest.
    destruct (IH _ Hrest) as [-> ->]. now split.
Qed.

(** A quoted string can be read back from the front of any text. *)
Lemma quote_inj (k1 k2 r1 r2 : string) :
  quote k1 +:+ r1 = quote k2 +:+ r2 -> k1 = k2 /\ r1 = r2.
Proof.
  unfold quote, Str.single. rewrite !app_cons, !app_assoc_s, !app_cons, !app_nil.
  intros [= H]. now apply escape_inj.
Qed.

End Quoting.

Section Signature.

(** What follows the first member in the text of an object. *)
Fixpoint membersTail (ms : list string) : string :=
  match ms with
  | [] => "}"
  | m :: ms' => "," +:+ m +:+ membersTail ms'
  end.

Lemma join_membersTail (m : string) (ms : list string) :
  Str.join "," (m :: ms) +:+ "}" = m +:+ membersTail ms.
Proof.
  revert m. induction ms as [|m' ms IH]; intros m; [reflexivity|].
  cbn [Str.join membersTail]. rewrite !app_assoc_s. now rewrite <- IH.
Qed.

Lemma stringify_members (f : FilterState) :
  JSON_stringify f
  = match omap stringifyMember f with
    | [] => "{}"
    | m :: ms => "{" +:+ m +:+ membersTail ms
    end.
Proof.
  unfold JSON_stringify. destruct (omap stringifyMember f) as [|m ms]; [reflexivity|].
  now rewrite join_membersTail.
Qed.

Lemma omap_written (f : FilterState) :
  omap stringifyMember (written f) = omap stringifyMember f.
Proof.
  unfold written. induction f as [|[k v] f IH]; [reflexivity|].
  cbn [List.filter omap list_omap]. simpl snd.
  destruct (decide (v = Scalar JS.Undefined)) as [->|Hne].
  - rewrite bool_decide_eq_false_2 by tauto. exact IH.
  - rewrite bool_decide_eq_true_2 by exact Hne. cbn [omap list_omap]. now rewrite IH.
Qed.

Lemma written_member (f : FilterState) (e : string * FilterValue) :
  In e (written f) -> exists s, stringifyMember e = Some (JS.quote e.1 +:+ ":" +:+ s).
Proof.
  unfold written. intros [_ Hne%bool_decide_eq_true]%filter_In.
  unfold stringifyMember. destruct e as [k [[| |b|x|s]|xs]]; simpl in *;
    try (eexists; reflexivity). congruence.
Qed.

Lemma written_keys_NoDup (f : FilterState) :
  NoDup (map fst f) -> NoDup (map fst (written f)).
Proof.
  unfold written. induction f as [|[k v] f IH]; [intros _; apply NoDup_nil_2|].
  cbn [map List.filter]. simpl fst. intros [Hk Hnd]%NoDup_cons.
  destruct (bool_decide _); [|now apply IH]. cbn [map]. apply NoDup_cons.
  split; [|now apply IH]. intros Hin. apply Hk.
  apply list_elem_of_In in Hin. apply list_elem_of_In.
  apply in_map_iff in Hin as [e [He Hin]]. apply filter_In in Hin as [Hin _].
  apply in_map_iff. eauto.
Qed.

Lemma written_getProp (f : FilterState) (k : string) :
  NoDup (map fst f) ->
  getProp k (written f)
  = match getProp k f with
    | Some (Scalar JS.Undefined) => None
    | o => o
    end.
Proof.
  unfold written. induction f as [|[k0 v0] f IH]; [reflexivity|].
  cbn [map List.filter]. simpl fst. simpl snd. intros [Hk Hnd]%NoDup_cons.
  specialize (IH Hnd). cbn [getProp].
  destruct (decide (v0 = Scalar JS.Undefined)) as [->|Hne].
  - rewrite bool_decide_eq_false_2 by tauto. rewrite IH.
    destruct (decide (k0 = k)) as [->|Hk0]; [|reflexivity].
    now rewrite (proj2 (getProp_None_keys k f) Hk).
  - rewrite bool_decide_eq_true_2 by exact Hne. cbn [getProp].
    destruct (decide (k0 = k)) as [->|Hk0]; [|exact IH].
    destruct v0 as [[]|]; congruence.
Qed.

(** Two entry lists with unique keys and the same properties, whose
    members are all written, and whose texts agree, are the same list. *)
Lemma membersTail_inj (F G : FilterState) :
  NoDup (map fst F) -> NoDup (map fst G) ->
  (forall k, getProp k F = getProp k G) ->
  (forall e, In e F -> exists s, stringifyMember e = Some (JS.quote e.1 +:+ ":" +:+ s)) ->
  (forall e, In e G -> exists s, stringifyMember e = Some (JS.quote e.1 +:+ ":" +:+ s)) ->
  membersTail (omap stringifyMember F) = membersTail (omap stringifyMember G) ->
  F = G.
Proof.
  revert G. induction F as [|[k1 v1] F IH]; intros [|[k2 v2] G] HndF HndG Hsame HF HG Htext.
  - reflexivity.
  - specialize (Hsame k2). cbn [getProp] in Hsame. now rewrite decide_True in Hsame.
  - specialize (Hsame k1). cbn [getProp] in Hsame. now rewrite decide_True in Hsame.
  - destruct (HF (k1, v1) (or_introl eq_refl)) as [s1 Hs1].
    destruct (HG (k2, v2) (or_introl eq_refl)) as [s2 Hs2].
    cbn [omap list_omap] in Htext. rewrite Hs1, Hs2 in Htext. cbn [membersTail] in Htext.
    simpl fst in Htext. apply (inj (String.app ",")) in Htext.
    rewrite !app_assoc_s in Htext. apply quote_inj in Htext as [<- Hrest].
    pose proof (Hsame k1) as Hv. cbn [getProp] in Hv.
    rewrite !decide_True in Hv by reflexivity. injection Hv as <-.
    assert (s1 = s2) as <-.
    { rewrite Hs1 in Hs2. injection Hs2 as Hs2. simpl fst in Hs2.
      now apply (inj (String.app _)), (inj (String.app _)) in Hs2. }
    apply (inj (String.app ":")), (inj (String.app s1)) in Hrest.
    cbn [map] in HndF, HndG. simpl fst in HndF, HndG.
    apply NoDup_cons in HndF as [HkF HndF]. apply NoDup_cons in HndG as [HkG HndG].
    f_equal. apply IH; try assumption.
    + intros k. specialize (Hsame k). cbn [getProp] in Hsame.
      destruct (decide (k1 = k)) as [<-|Hne]; [|exact Hsame].
      rewrite (proj2 (getProp_None_keys k1 F) HkF).
      now rewrite (proj2 (getProp_None_keys k1 G) HkG).
    + intros e He. apply HF. now right.
    + intros e He. apply HG. now right.
Qed.

Lemma text_membersTail (F G : FilterState) :
  (forall k, getProp k F = getProp k G) ->
  (forall e, In e F -> exists s, stringifyMember e = Some (JS.quote e.1 +:+ ":" +:+ s)) ->
  (forall e, In e G -> exists s, stringifyMember e = Some (JS.quote e.1 +:+ ":" +:+ s)) ->
  JSON_stringify F = JSON_stringify G ->
  membersTail (omap stringifyMember F) = membersTail (omap stringifyMember G).
Proof.
  destruct F as [|[k1 v1] F], G as [|[k2 v2] G]; intros Hsame HF HG.
  - reflexivity.
  - specialize (Hsame k2). cbn [getProp] in Hsame. now rewrite decide_True in Hsame.
  - specialize (Hsame k1). cbn [getProp] in Hsame. now rewrite decide_True in Hsame.
  - destruct (HF (k1, v1) (or_introl eq_refl)) as [s1 Hs1].
    destruct (HG (k2, v2) (or_introl eq_refl)) as [s2 Hs2].
    rewrite !stringify_members. cbn [omap list_omap]. rewrite Hs1, Hs2.
    intros Htext. apply (inj (String.app "{")) in Htext.
    cbn [membersTail]. now rewrite Htext.
Qed.

(** C1, as the code has it. The signature is the JSON text of the filter
    object in the order of its properties: two objects that are equal as
    mappings have the same signature exactly when the properties that are
    written (those that are not [undefined]) come in the same order. Keys
    are not sorted. *)
Theorem signature_follows_property_order (f g : FilterState) :
  sameMapping f g ->
  (signature f = signature g <-> written f = written g).
Proof.
  intros (Hf & Hg & Hsame).
  assert (Hw : forall k, getProp k (written f) = getProp k (written g)).
  { intros k. rewrite !written_getProp by assumption. now rewrite Hsame. }
  split.
  - unfold signature, JSON_stringify at 1 2.
    rewrite <- (omap_written f), <- (omap_written g).
    fold (JSON_stringify (written f)). fold (JSON_stringify (written g)).
    intros Htext. apply membersTail_inj.
    + now apply written_keys_NoDup.
    + now apply written_keys_NoDup.
    + exact Hw.
    + apply written_member.
    + apply written_member.
    + apply text_membersTail; [exact Hw|apply written_member..|exact Htext].
  - intros Heq. unfold signature, JSON_stringify.
    now rewrite <- (omap_written f), <- (omap_written g), Heq.
Qed.

End Signature.

Definition filtersAB : FilterState :=
  [("date", Scalar (JS.Str "2024-01")); ("store", Scalar (JS.Str "A"))].
Definition filtersBA : FilterState :=
  [("store", Scalar (JS.Str "A")); ("date", Scalar (JS.Str "2024-01"))].

Lemma filtersAB_BA_sameMapping : sameMapping filtersAB filtersBA.
Proof.
  split; [apply NoDup_two; discriminate|]. split; [apply NoDup_two; discriminate|].
  intros k. unfold filtersAB, filtersBA. cbn [getProp].
  destruct (decide ("date" = k)) as [<-|Hd]; [reflexivity|].
  destruct (decide ("store" = k)); reflexivity.
Qed.

(** The claim C1 as it was stated fails: the same mapping built in two
    orders has two signatures. *)
Lemma signature_depends_on_order :
  sameMapping filtersAB filtersBA /\ signature filtersAB <> signature filtersBA.
Proof. split; [exact filtersAB_BA_sameMapping|discriminate]. Qed.

Definition filtersUndefinedFirst : FilterState :=
  [("date", Scalar JS.Undefined); ("store", Scalar (JS.Str "A"))].
Definition filtersUndefinedLast : FilterState :=
  [("store", Scalar (JS.Str "A")); ("date", Scalar JS.Undefined)].

Lemma filtersUndefined_sameMapping : sameMapping filtersUndefinedFirst filtersUndefinedLast.
Proof.
  split; [apply NoDup_two; discriminate|]. split; [apply NoDup_two; discriminate|].
  intros k. unfold filtersUndefinedFirst, filtersUndefinedLast. cbn [getProp].
  destruct (decide ("date" = k)) as [<-|Hd]; [reflexivity|].
  destruct (decide ("store" = k)); reflexivity.
Qed.

(** A property that is [undefined] is not written, so its place does not
    count. *)
Lemma signature_follows_property_order_sample :
  signature filtersUndefinedFirst = signature filtersUndefinedLast.
Proof.
  apply (signature_follows_property_order filtersUndefinedFirst filtersUndefinedLast
           filtersUndefined_sameMapping).
  reflexivity.
Defined.

(** ** Data store: proofs *)

Section DataStore.

Lemma logged_nil (st : Store) : logged [] st = st.
Proof. destruct st. unfold logged. cbn. now rewrite app_nil_r. Qed.

Lemma logged_cons (url : string) (urls : list string) (st : Store) :
  logged urls (logged [url] st) = logged (url :: urls) st.
Proof. unfold logged. cbn. now rewrite <- app_assoc. Qed.

(** Loading a partition requests its URL and touches nothing else; what it
    returns depends on the network only. *)
Lemma loadPartitionSlice_run (net : Network) (p : PartitionDescriptor) (fmt : string)
    (st st' : Store) :
  (loadPartitionSlice net p fmt st).2 = logged [partitionUrl p] st /\
  (loadPartitionSlice net p fmt st).1 = (loadPartitionSlice net p fmt st').1.
Proof.
  unfold loadPartitionSlice, fetch, bind, logFetch, ret, throw, parseCsv.
  fold (partitionUrl p).
  destruct (decide (fmt = "json")); cbn;
    destruct (fetchPartition net (partitionUrl p)) as [r|]; cbn; try (split; reflexivity);
    destruct (ok r); cbn; try (split; reflexivity).
  - destruct (json r); split; reflexivity.
  - destruct (Str.split _ _); split; reflexivity.
Qed.

Lemma loadPartitionSlice_eq (net : Network) (p : PartitionDescriptor) (fmt : string)
    (st : Store) :
  loadPartitionSlice net p fmt st
  = ((loadPartitionSlice net p fmt st).1, logged [partitionUrl p] st).
Proof.
  rewrite <- (proj1 (loadPartitionSlice_run net p fmt st st)).
  now destruct (loadPartitionSlice net p fmt st).
Qed.

(** A failed request: the response is not [ok]. *)
Lemma loadPartitionSlice_not_ok (net : Network) (p : PartitionDescriptor) (fmt : string)
    (st : Store) (response : Response Slice) :
  fetchPartition net (partitionUrl p) = Some response -> ok response = false ->
  (loadPartitionSlice net p fmt st).1
  = Throw (Error ("Failed to download " +:+ partitionUrl p)).
Proof.
  intros Hfetch Hok.
  unfold loadPartitionSlice, fetch, bind, logFetch, ret, throw.
  fold (partitionUrl p). destruct (decide (fmt = "json")); cbn; rewrite Hfetch; cbn;
    rewrite Hok; reflexivity.
Qed.

Lemma promiseAllMap_log (net : Network) (fmt : string) (parts : list PartitionDescriptor)
    (st : Store) :
  (promiseAllMap (fun p => loadPartitionSlice net p fmt) parts st).2
  = logged (map partitionUrl parts) st.
Proof.
  revert st. induction parts as [|p parts IH]; intros st; cbn [promiseAllMap map].
  - now rewrite logged_nil.
  - rewrite loadPartitionSlice_eq.
    specialize (IH (logged [partitionUrl p] st)).
    destruct (promiseAllMap _ parts (logged [partitionUrl p] st)) as [rs st2].
    cbn in IH |- *. now rewrite IH, logged_cons.
Qed.

Lemma promiseAllMap_ok (net : Network) (fmt : string) (parts : list PartitionDescriptor)
    (downloads : list Slice) (st : Store) :
  Forall2 (fun p slice => (loadPartitionSlice net p fmt st).1 = Ok slice) parts downloads ->
  (promiseAllMap (fun p => loadPartitionSlice net p fmt) parts st).1 = Ok downloads.
Proof.
  revert downloads st.
  induction parts as [|p parts IH]; intros downloads st Hall;
    inversion Hall as [|? s ? ds Hp Hrest]; subst.
  - reflexivity.
  - cbn [promiseAllMap]. rewrite loadPartitionSlice_eq, Hp.
    specialize (IH ds (logged [partitionUrl p] st)).
    destruct (promiseAllMap _ parts (logged [partitionUrl p] st)) as [rs st2].
    cbn in IH |- *. rewrite IH; [reflexivity|].
    eapply Forall2_impl; [exact Hrest|]. intros q s' Hq. cbn in Hq.
    now rewrite <- (proj2 (loadPartitionSlice_run net q fmt st _)).
Qed.

Lemma promiseAllMap_throw (net : Network) (fmt : string) (parts : list PartitionDescriptor)
    (p : PartitionDescriptor) (e : Exn) (st : Store) :
  In p parts -> (loadPartitionSlice net p fmt st).1 = Throw e ->
  exists e', (promiseAllMap (fun p => loadPartitionSlice net p fmt) parts st).1 = Throw e'.
Proof.
  revert st. induction parts as [|q parts IH]; intros st Hin Hp; [destruct Hin|].
  cbn [promiseAllMap]. rewrite loadPartitionSlice_eq.
  destruct Hin as [->|Hin].
  - rewrite Hp. destruct (promiseAllMap _ parts _) as [rs st2]. cbn. eauto.
  - destruct (IH (logged [partitionUrl q] st) Hin) as [e' He'].
    { now rewrite <- (proj2 (loadPartitionSlice_run net p fmt st _)). }
    destruct (promiseAllMap _ parts _) as [rs st2]. cbn in He' |- *. subst rs.
    destruct (loadPartitionSlice net q fmt st).1; eauto.
Qed.

Lemma ensurePartitions_hit (net : Network) (filters : FilterState) (st : Store)
    (slice : Slice) :
  cache st !! signature filters = Some slice ->
  ensurePartitions net filters st = (Ok slice, st).
Proof.
  unfold signature. intros Hhit. unfold ensurePartitions, bind, gets, ret. cbn.
  rewrite bool_decide_eq_true_2 by eauto. cbn. now rewrite Hhit.
Qed.

Lemma ensurePartitions_fallback (net : Network) (filters : FilterState) (st : Store) :
  cache st !! signature filters = None ->
  partitionsByFilter st !! signature filters = None ->
  ensurePartitions net filters st
  = match (promiseAllMap (fun p => loadPartitionSlice net p (format (metadata st)))
                         (partitions (metadata st)) st).1 with
    | Ok downloads =>
        (Ok (mergeSlices downloads),
         cached (signature filters) (mergeSlices downloads)
                (logged (map partitionUrl (partitions (metadata st))) st))
    | Throw e => (Throw e, logged (map partitionUrl (partitions (metadata st))) st)
    end.
Proof.
  unfold signature. intros Hmiss Hindex.
  pose proof (promiseAllMap_log net (format (metadata st)) (partitions (metadata st)) st)
    as Hlog.
  unfold ensurePartitions, bind, gets, ret. cbn.
  rewrite bool_decide_eq_false_2 by (rewrite Hmiss; intros [? ?]; discriminate).
  cbn. rewrite Hindex.
  destruct (promiseAllMap _ (partitions (metadata st)) st) as [[downloads|e] st1];
    cbn in Hlog |- *; subst st1; [|reflexivity].
  unfold cacheSet, cached. cbn. now rewrite lookup_insert_eq.
Qed.

Lemma ensurePartitions_exact (net : Network) (filters : FilterState) (st : Store)
    (partition : PartitionDescriptor) :
  cache st !! signature filters = None ->
  partitionsByFilter st !! signature filters = Some partition ->
  ensurePartitions net filters st
  = match (loadPartitionSlice net partition (format (metadata st)) st).1 with
    | Ok slice =>
        (Ok slice, cached (signature filters) slice (logged [partitionUrl partition] st))
    | Throw e => (Throw e, logged [partitionUrl partition] st)
    end.
Proof.
  unfold signature. intros Hmiss Hindex.
  unfold ensurePartitions, bind, gets, ret. cbn.
  rewrite bool_decide_eq_false_2 by (rewrite Hmiss; intros [? ?]; discriminate).
  cbn. rewrite Hindex. rewrite loadPartitionSlice_eq.
  destruct (loadPartitionSlice net partition (format (metadata st)) st).1 as [slice|e];
    [|reflexivity].
  unfold cacheSet, cached. cbn. now rewrite lookup_insert_eq.
Qed.

(** What a resolution does to the store: nothing on a hit; on a miss it
    requests some URLs and, when it succeeds, caches the slice it returns
    under the signature. *)
Lemma ensurePartitions_cases (net : Network) (filters : FilterState) (st : Store) :
  match cache st !! signature filters with
  | Some slice => ensurePartitions net filters st = (Ok slice, st)
  | None =>
      exists urls,
        (exists e, ensurePartitions net filters st = (Throw e, logged urls st)) \/
        (exists slice, ensurePartitions net filters st
                       = (Ok slice, cached (signature filters) slice (logged urls st)))
  end.
Proof.
  destruct (cache st !! signature filters) as [slice|] eqn:Hc.
  - now apply ensurePartitions_hit.
  - destruct (partitionsByFilter st !! signature filters) as [partition|] eqn:Hi.
    + exists [partitionUrl partition]. rewrite (ensurePartitions_exact _ _ _ _ Hc Hi).
      destruct (loadPartitionSlice _ _ _ _).1; eauto.
    + exists (map partitionUrl (partitions (metadata st))).
      rewrite (ensurePartitions_fallback _ _ _ Hc Hi).
      destruct (promiseAllMap _ _ _).1; eauto.
Qed.

(** A resolution keeps every entry of the cache. *)
Lemma ensurePartitions_keeps (net : Network) (filters : FilterState) (st : Store)
    (k : string) (v : Slice) :
  cache st !! k = Some v -> cache (ensurePartitions net filters st).2 !! k = Some v.
Proof.
  intros Hk. pose proof (ensurePartitions_cases net filters st) as Hcases.
  destruct (cache st !! signature filters) as [slice|] eqn:Hc.
  - now rewrite Hcases.
  - destruct Hcases as [urls [[e ->]|[slice ->]]]; cbn; [exact Hk|].
    rewrite lookup_insert_ne; [exact Hk|]. intros <-. congruence.
Qed.

(** The slice a resolution returns is in the cache afterwards. *)
Lemma ensurePartitions_caches (net : Network) (filters : FilterState) (st st' : Store)
    (slice : Slice) :
  ensurePartitions net filters st = (Ok slice, st') ->
  cache st' !! signature filters = Some slice.
Proof.
  intros Hrun. pose proof (ensurePartitions_cases net filters st) as Hcases.
  destruct (cache st !! signature filters) as [slice0|] eqn:Hc.
  - rewrite Hcases in Hrun. injection Hrun as <- <-. exact Hc.
  - destruct Hcases as [urls [[e He]|[slice0 Hs]]]; rewrite Hrun in *; [discriminate|].
    injection Hs as -> ->. cbn. apply lookup_insert_eq.
Qed.

Lemma getRows_state (net : Network) (filters : FilterState) (st : Store) :
  (getRows net filters st).2 = (ensurePartitions net filters st).2.
Proof.
  unfold getRows, bind, ret. now destruct (ensurePartitions net filters st) as [[slice|e] st'].
Qed.

Lemma getRows_throw (net : Network) (filters : FilterState) (st st' : Store) (e : Exn) :
  ensurePartitions net filters st = (Throw e, st') ->
  getRows net filters st = (Throw e, st').
Proof. intros H. unfold getRows, bind. now rewrite H. Qed.

Lemma runOp_keeps (net : Network) (op : Op) (st : Store) (k : string) (v : Slice) :
  cache st !! k = Some v -> cache (runOp net op st) !! k = Some v.
Proof.
  intros Hk. destruct op as [|groupBy metrics|nextFilters]; cbn [runOp].
  - unfold bootstrap, bind, gets. rewrite getRows_state. now apply ensurePartitions_keeps.
  - unfold query, bind, gets.
    pose proof (getRows_state net (activeFilters st) st) as Hst.
    pose proof (ensurePartitions_keeps net (activeFilters st) st k v Hk) as Hkeep.
    destruct (getRows net (activeFilters st) st) as [[r|e] st']; cbn in Hst |- *;
      now rewrite Hst.
  - unfold setFilters, updateFilters, bind, gets, setActiveFilters, emit. cbn.
    rewrite getRows_state. now apply ensurePartitions_keeps.
Qed.

Lemma runOps_keeps (calls : list (Network * Op)) (st : Store) (k : string) (v : Slice) :
  cache st !! k = Some v -> cache (runOps calls st) !! k = Some v.
Proof.
  revert st. unfold runOps. induction calls as [|[net op] calls IH]; intros st Hk;
    cbn [fold_left]; [exact Hk|].
  apply IH. now apply runOp_keeps.
Qed.

Lemma mergeSlices_data (slices : list Slice) :
  data (mergeSlices slices) = concat (map data slices).
Proof. now destruct slices. Qed.

Lemma length_concat_data (slices : list Slice) :
  length (concat (map data slices)) = rowCount slices.
Proof.
  induction slices as [|s slices IH]; [reflexivity|].
  cbn [map concat rowCount fold_right]. rewrite length_app. now rewrite IH.
Qed.

(** C4. When the signature of the filter state is neither cached nor in the
    partition index, and every partition downloads, the resolution requests
    all the declared partitions, in order, returns the slice that has the
    columns of the first download and the rows of all of them, one after
    the other, and caches it under the signature; its row count is the sum
    of the row counts of the partitions. *)
Theorem fallback_merges_all_partitions (net : Network) (filters : FilterState)
    (st : Store) (downloads : list Slice) :
  cache st !! signature filters = None ->
  partitionsByFilter st !! signature filters = None ->
  Forall2 (fun p slice =>
             (loadPartitionSlice net p (format (metadata st)) st).1 = Ok slice)
          (partitions (metadata st)) downloads ->
  ensurePartitions net filters st
  = (Ok (mergeSlices downloads),
     cached (signature filters) (mergeSlices downloads)
            (logged (map partitionUrl (partitions (metadata st))) st)) /\
  columns (mergeSlices downloads)
  = match downloads with [] => [] | first :: _ => columns first end /\
  data (mergeSlices downloads) = concat (map data downloads) /\
  length (data (mergeSlices downloads)) = rowCount downloads.
Proof.
  intros Hmiss Hindex Hall. split; [|split; [|split]].
  - rewrite (ensurePartitions_fallback _ _ _ Hmiss Hindex).
    now rewrite (promiseAllMap_ok _ _ _ _ _ Hall).
  - now destruct downloads.
  - apply mergeSlices_data.
  - rewrite mergeSlices_data. apply length_concat_data.
Qed.

(** The two halves of a resolution. *)
Lemma startResolution_hit (net : Network) (filters : FilterState) (st : Store)
    (slice : Slice) :
  cache st !! signature filters = Some slice ->
  startResolution net filters st = (Returned (Ok slice), st).
Proof. unfold signature, startResolution. now intros ->. Qed.

Lemma startResolution_cache (net : Network) (filters : FilterState) (st : Store) :
  cache (startResolution net filters st).2 = cache st.
Proof.
  unfold startResolution.
  destruct (cache st !! JSON_stringify filters); [reflexivity|].
  destruct (partitionsByFilter st !! JSON_stringify filters) as [partition|]; cbn.
  - now rewrite (proj1 (loadPartitionSlice_run net partition _ st st)).
  - now rewrite promiseAllMap_log.
Qed.

Lemma startResolution_awaits (net : Network) (filters : FilterState) (st : Store)
    (k : string) :
  awaitedKey (startResolution net filters st).1 = Some k -> cache st !! k = None.
Proof.
  unfold startResolution.
  destruct (cache st !! JSON_stringify filters) eqn:Hc; [discriminate|].
  destruct (partitionsByFilter st !! JSON_stringify filters); cbn; now intros [= <-].
Qed.

Lemma completeResolution_run (pending : Pending) (st : Store) :
  completeResolution pending st
  = match pending with
    | Returned result => (result, st)
    | AwaitingAll key (Ok downloads) =>
        (Ok (mergeSlices downloads), cached key (mergeSlices downloads) st)
    | AwaitingOne key (Ok slice) => (Ok slice, cached key slice st)
    | AwaitingAll _ (Throw e) | AwaitingOne _ (Throw e) => (Throw e, st)
    end.
Proof.
  destruct pending as [[slice|e]|key [downloads|e]|key [slice|e]]; try reflexivity;
    unfold completeResolution, cacheGet, cacheSet, bind, gets, ret, cached; cbn;
    now rewrite lookup_insert_eq.
Qed.

Lemma completeResolution_other (pending : Pending) (st : Store) (k : string) :
  awaitedKey pending <> Some k ->
  cache (completeResolution pending st).2 !! k = cache st !! k.
Proof.
  rewrite completeResolution_run.
  destruct pending as [result|key [downloads|e]|key [slice|e]]; cbn; try reflexivity;
    intros Hne; apply lookup_insert_ne; congruence.
Qed.

Lemma completeResolution_keeps (pending : Pending) (st : Store) (k : string) :
  is_Some (cache st !! k) -> is_Some (cache (completeResolution pending st).2 !! k).
Proof.
  rewrite completeResolution_run.
  destruct pending as [result|key [downloads|e]|key [slice|e]]; cbn; try tauto;
    intros Hk; apply lookup_insert_is_Some; destruct (decide (key = k)); auto.
Qed.

(** Run on its own, a resolution is its two halves one after the other. *)
Lemma ensurePartitions_phases (net : Network) (filters : FilterState) (st : Store) :
  ensurePartitions net filters st
  = completeResolution (startResolution net filters st).1
                       (startResolution net filters st).2.
Proof.
  destruct (cache st !! signature filters) as [slice|] eqn:Hc.
  - now rewrite (ensurePartitions_hit _ _ _ _ Hc), (startResolution_hit _ _ _ _ Hc).
  - destruct (partitionsByFilter st !! signature filters) as [partition|] eqn:Hi.
    + rewrite (ensurePartitions_exact _ _ _ _ Hc Hi). unfold startResolution.
      unfold signature in Hc, Hi. rewrite Hc, Hi. cbv zeta. cbn [fst snd].
      rewrite completeResolution_run.
      rewrite (proj1 (loadPartitionSlice_run net partition _ st st)).
      now destruct (loadPartitionSlice net partition _ st).1.
    + rewrite (ensurePartitions_fallback _ _ _ Hc Hi). unfold startResolution.
      unfold signature in Hc, Hi. rewrite Hc, Hi. cbv zeta. cbn [fst snd].
      rewrite completeResolution_run.
      rewrite promiseAllMap_log.
      now destruct (promiseAllMap _ _ st).1.
Qed.

Lemma beginOp_start (net : Network) (op : Op) (st : Store) :
  exists filters st0,
    beginOp net op st = startResolution net filters st0 /\ cache st0 = cache st.
Proof. destruct op; cbn [beginOp]; eauto. Qed.

Lemma runOp_phases (net : Network) (op : Op) (st : Store) :
  runOp net op st
  = (completeResolution (beginOp net op st).1 (beginOp net op st).2).2.
Proof.
  destruct op as [|groupBy metrics|nextFilters]; cbn [runOp beginOp].
  - unfold bootstrap, bind, gets. now rewrite getRows_state, ensurePartitions_phases.
  - unfold query, bind, gets.
    pose proof (getRows_state net (activeFilters st) st) as Hst.
    rewrite ensurePartitions_phases in Hst.
    destruct (getRows net (activeFilters st) st) as [[r|e] st']; exact Hst.
  - unfold setFilters, updateFilters, bind, gets, setActiveFilters, emit. cbn.
    now rewrite getRows_state, ensurePartitions_phases.
Qed.

(** An entry is never removed, whatever begins and resumes. *)
Lemma step_keeps (w : Store * list Pending) (e : Event) (k : string) :
  is_Some (cache w.1 !! k) -> is_Some (cache (step w e).1 !! k).
Proof.
  destruct w as [st waiting]. intros Hk. destruct e as [net op|task]; cbn [step fst snd].
  - destruct (beginOp_start net op st) as (filters & st0 & -> & Hcache).
    cbn. now rewrite startResolution_cache, Hcache.
  - destruct (waiting !! task) as [pending|]; [|exact Hk].
    cbn. now apply completeResolution_keeps.
Qed.

Lemma schedule_keeps (events : list Event) (w : Store * list Pending) (k : string) :
  is_Some (cache w.1 !! k) -> is_Some (cache (schedule events w).1 !! k).
Proof.
  revert w. unfold schedule. induction events as [|e events IH]; intros w Hk;
    cbn [fold_left]; [exact Hk|].
  apply IH. now apply step_keeps.
Qed.

(** An entry that no suspended resolution is about to write stays as it
    is, and no resolution begun later will write it. *)
Lemma step_settled (w : Store * list Pending) (e : Event) (k : string) (v : Slice) :
  cache w.1 !! k = Some v ->
  Forall (fun pending => awaitedKey pending <> Some k) w.2 ->
  cache (step w e).1 !! k = Some v /\
  Forall (fun pending => awaitedKey pending <> Some k) (step w e).2.
Proof.
  destruct w as [st waiting]. cbn [fst snd]. intros Hk Hw.
  destruct e as [net op|task]; cbn [step fst snd].
  - destruct (beginOp_start net op st) as (filters & st0 & -> & Hcache). cbn. split.
    + now rewrite startResolution_cache, Hcache.
    + apply Forall_app. split; [exact Hw|]. apply Forall_cons. split; [|apply Forall_nil_2].
      intros Hawait. apply startResolution_awaits in Hawait. congruence.
  - destruct (waiting !! task) as [pending|] eqn:Htask; [|now split].
    cbn. split.
    + rewrite completeResolution_other; [exact Hk|].
      exact (proj1 (Forall_lookup _ _) Hw _ _ Htask).
    + apply Forall_insert; [exact Hw|discriminate].
Qed.

Lemma schedule_settled (events : list Event) (w : Store * list Pending) (k : string)
    (v : Slice) :
  cache w.1 !! k = Some v ->
  Forall (fun pending => awaitedKey pending <> Some k) w.2 ->
  cache (schedule events w).1 !! k = Some v.
Proof.
  revert w. unfold schedule. induction events as [|e events IH]; intros w Hk Hw;
    cbn [fold_left]; [exact Hk|].
  destruct (step_settled w e k v Hk Hw) as [Hk' Hw']. now apply IH.
Qed.

(** Calls made one after the other are one of the schedules. *)
Lemma schedule_sequentially (calls : list (Network * Op)) (st : Store)
    (waiting : list Pending) (task : nat) :
  task = length waiting ->
  (schedule (sequentially calls task) (st, waiting)).1 = runOps calls st.
Proof.
  revert st waiting task. unfold schedule, runOps.
  induction calls as [|[net op] calls IH]; intros st waiting task Htask;
    cbn [sequentially fold_left]; [reflexivity|].
  cbn [step fst snd].
  rewrite (list_lookup_middle waiting [] _ task Htask).
  rewrite IH; [now rewrite <- runOp_phases|].
  rewrite length_insert, length_app. cbn. lia.
Qed.

(** C5. No entry of the cache is ever removed, whatever calls begin and
    resume in whatever order.  Once a filter state has been resolved and no
    resolution of the same signature is still suspended, its entry is not
    replaced either: resolving it again, whatever else has begun or resumed
    in between and whatever the network does, returns the same slice at
    once, with no request and no write.  Calls made one after the other are
    a special case: the second resolution returns the same slice and leaves
    the store, the log of requests included, as it was. *)
Theorem cached_slice_is_kept (net net' : Network) (filters : FilterState)
    (st st1 : Store) (slice : Slice) (calls : list (Network * Op))
    (waiting : list Pending) (events : list Event) :
  ensurePartitions net filters st = (Ok slice, st1) ->
  Forall (fun pending => awaitedKey pending <> Some (signature filters)) waiting ->
  (forall k, is_Some (cache st1 !! k) ->
             is_Some (cache (schedule events (st1, waiting)).1 !! k)) /\
  cache (schedule events (st1, waiting)).1 !! signature filters = Some slice /\
  startResolution net' filters (schedule events (st1, waiting)).1
  = (Returned (Ok slice), (schedule events (st1, waiting)).1) /\
  ensurePartitions net' filters (schedule events (st1, waiting)).1
  = (Ok slice, (schedule events (st1, waiting)).1) /\
  (schedule (sequentially calls 0) (st1, [])).1 = runOps calls st1 /\
  (forall k v, cache st1 !! k = Some v -> cache (runOps calls st1) !! k = Some v) /\
  ensurePartitions net' filters (runOps calls st1) = (Ok slice, runOps calls st1) /\
  fetched (ensurePartitions net' filters (runOps calls st1)).2
  = fetched (runOps calls st1).
Proof.
  intros Hrun Hwaiting.
  pose proof (ensurePartitions_caches net _ st _ _ Hrun) as Hcached.
  pose proof (schedule_settled events (st1, waiting) _ _ Hcached Hwaiting) as Hkept.
  assert (Hagain : ensurePartitions net' filters (runOps calls st1)
                   = (Ok slice, runOps calls st1)).
  { apply ensurePartitions_hit, runOps_keeps. exact Hcached. }
  split; [intros k; apply (schedule_keeps events (st1, waiting))|].
  split; [exact Hkept|].
  split; [now apply startResolution_hit|].
  split; [now apply ensurePartitions_hit|].
  split; [now apply schedule_sequentially|].
  split; [intros k v; apply runOps_keeps|]. split; [exact Hagain|]. now rewrite Hagain.
Qed.

Lemma rejects_getRows (net : Network) (filters : FilterState) (st : Store) :
  rejectsKeepingCache (ensurePartitions net filters) st ->
  rejectsKeepingCache (getRows net filters) st.
Proof.
  intros (e & st' & Hrun & Hcache). exists e, st'. split; [|exact Hcache].
  now apply getRows_throw.
Qed.

(** C6. When the signature is neither cached nor in the partition index and
    the response for one of the partitions is not [ok], the resolution
    throws, and so do [bootstrap], [query] and [setFilters] when they
    resolve that filter state; no slice is returned and the cache is left
    as it was. *)
Theorem fallback_failure_rejects (net : Network) (filters : FilterState) (st : Store)
    (p : PartitionDescriptor) (response : Response Slice) :
  cache st !! signature filters = None ->
  partitionsByFilter st !! signature filters = None ->
  In p (partitions (metadata st)) ->
  fetchPartition net (partitionUrl p) = Some response -> ok response = false ->
  rejectsKeepingCache (ensurePartitions net filters) st /\
  (activeFilters st = filters ->
     rejectsKeepingCache (bootstrap net) st /\
     forall groupBy metrics, rejectsKeepingCache (query net groupBy metrics) st) /\
  (forall patch, spread (activeFilters st) patch = filters ->
     rejectsKeepingCache (setFilters net patch) st).
Proof.
  intros Hmiss Hindex Hp Hfetch Hok.
  assert (Hrej : forall st0, cache st0 = cache st ->
                   partitionsByFilter st0 = partitionsByFilter st ->
                   metadata st0 = metadata st ->
                   rejectsKeepingCache (ensurePartitions net filters) st0).
  { intros st0 Hc Hi Hm.
    destruct (promiseAllMap_throw net (format (metadata st0)) (partitions (metadata st0)) p
                (Error ("Failed to download " +:+ partitionUrl p)) st0) as [e He].
    { now rewrite Hm. }
    { now apply (loadPartitionSlice_not_ok _ _ _ _ response). }
    exists e, (logged (map partitionUrl (partitions (metadata st0))) st0).
    split; [|reflexivity].
    rewrite ensurePartitions_fallback by (rewrite ?Hc, ?Hi; assumption).
    now rewrite He. }
  split; [apply Hrej; reflexivity|]. split.
  - intros Hactive.
    destruct (rejects_getRows net filters st (Hrej st eq_refl eq_refl eq_refl))
      as (e & st' & Hrun & Hcache).
    split; [|intros groupBy metrics]; exists e, st'; (split; [|exact Hcache]).
    + unfold bootstrap, bind, gets. rewrite Hactive, Hrun. reflexivity.
    + unfold query, bind, gets. rewrite Hactive, Hrun. reflexivity.
  - intros patch Hpatch.
    destruct (rejects_getRows net filters
                (emit filters (setActiveFilters filters st).2).2
                (Hrej (emit filters (setActiveFilters filters st).2).2
                      eq_refl eq_refl eq_refl))
      as (e & st' & Hrun & Hcache).
    exists e, st'. split; [|exact Hcache].
    unfold setFilters, updateFilters, bind, gets. rewrite Hpatch.
    unfold setActiveFilters at 1. unfold emit at 1. cbv beta iota.
    rewrite <- Hrun. reflexivity.
Qed.

End DataStore.

(** ** The data store on a sample dataset

    Two monthly partitions in JSON; the second network answers the request
    for February with a response that is not [ok]. *)
Definition sliceJanuary : Slice :=
  {| columns := sampleColumns;
     data := [ [JS.Str "A"; JS.Str "auto"; JS.Num (JS.ofZ 2)];
               [JS.Str "A"; JS.Str "manual"; JS.Num (JS.ofZ 4)] ] |}.

Definition sliceFebruary : Slice :=
  {| columns := sampleColumns;
     data := [ [JS.Str "B"; JS.Str "auto"; JS.Num (JS.ofZ 6)] ] |}.

Definition partitionJanuary : PartitionDescriptor :=
  {| part_filters := [("date", Scalar (JS.Str "2024-01"))]; part_path := "2024-01.json" |}.

Definition partitionFebruary : PartitionDescriptor :=
  {| part_filters := [("date", Scalar (JS.Str "2024-02"))]; part_path := "2024-02.json" |}.

Definition sampleMetadata : Metadata :=
  {| meta_filters := [("date", [JS.Str "2024-01"; JS.Str "2024-02"])];
     partitions := [partitionJanuary; partitionFebruary];
     format := "json" |}.

Definition notFound : Response Slice :=
  {| ok := false; json := None; text := "Not Found" |}.

Definition sampleNetwork : Network :=
  {| fetchIndex := Some {| ok := true; json := Some sampleMetadata; text := EmptyString |};
     fetchPartition := fun url =>
       if decide (url = "./data/2024-01.json")
       then Some {| ok := true; json := Some sliceJanuary; text := EmptyString |}
       else if decide (url = "./data/2024-02.json")
       then Some {| ok := true; json := Some sliceFebruary; text := EmptyString |}
       else Some notFound |}.

Definition brokenNetwork : Network :=
  {| fetchIndex := fetchIndex sampleNetwork;
     fetchPartition := fun url =>
       if decide (url = "./data/2024-02.json") then Some notFound
       else fetchPartition sampleNetwork url |}.

Definition sampleStore : Store :=
  {| metadata := sampleMetadata;
     partitionsByFilter := indexPartitions (partitions sampleMetadata);
     cache := ∅; activeFilters := []; fetched := []; emitted := [] |}.

Definition filters2099 : FilterState := [("date", Scalar (JS.Str "2099-01"))].

Lemma createDataStore_sample : createDataStore sampleNetwork [] = Ok sampleStore.
Proof. vm_compute. reflexivity. Qed.

Lemma fallback_sample :
  ensurePartitions sampleNetwork filters2099 sampleStore
  = (Ok (mergeSlices [sliceJanuary; sliceFebruary]),
     cached (signature filters2099) (mergeSlices [sliceJanuary; sliceFebruary])
            (logged (map partitionUrl (partitions (metadata sampleStore))) sampleStore)).
Proof.
  refine (proj1 (fallback_merges_all_partitions sampleNetwork filters2099 sampleStore
                   [sliceJanuary; sliceFebruary] _ _ _)).
  - vm_compute. reflexivity.
  - vm_compute. reflexivity.
  - repeat (constructor; [vm_compute; reflexivity|]). constructor.
Defined.

Lemma cached_slice_sample :
  cache (schedule [Begin brokenNetwork Bootstrap; Resume 0]
                  ((ensurePartitions sampleNetwork filters2099 sampleStore).2, [])).1
    !! signature filters2099
  = Some (mergeSlices [sliceJanuary; sliceFebruary]).
Proof.
  refine (proj1 (proj2 (cached_slice_is_kept sampleNetwork brokenNetwork filters2099
                          sampleStore
                          (ensurePartitions sampleNetwork filters2099 sampleStore).2
                          (mergeSlices [sliceJanuary; sliceFebruary])
                          [] [] [Begin brokenNetwork Bootstrap; Resume 0] _ _))).
  - vm_compute. reflexivity.
  - apply Forall_nil_2.
Defined.

(** A network on which the January partition has been revised. *)
Definition sliceJanuaryRevised : Slice :=
  {| columns := sampleColumns;
     data := [ [JS.Str "A"; JS.Str "auto"; JS.Num (JS.ofZ 3)] ] |}.

Definition revisedNetwork : Network :=
  {| fetchIndex := fetchIndex sampleNetwork;
     fetchPartition := fun url =>
       if decide (url = "./data/2024-01.json")
       then Some {| ok := true; json := Some sliceJanuaryRevised; text := EmptyString |}
       else fetchPartition sampleNetwork url |}.

(** Two calls of [bootstrap] that overlap; the first resumes. *)
Definition twoBootstraps : list Event :=
  [Begin sampleNetwork Bootstrap; Begin revisedNetwork Bootstrap; Resume 0].

(** The claim C5 as it was stated fails: an entry of the cache can be
    replaced.  On a new store with no filter, both calls find the signature
    uncached and request the two partitions; the first one to resume
    inserts the entry, the second replaces it with the merge of what it
    has downloaded itself. *)
Lemma overlapping_resolutions_replace_entry :
  createDataStore sampleNetwork [] = Ok sampleStore /\
  cache (schedule twoBootstraps (sampleStore, [])).1 !! signature []
  = Some (mergeSlices [sliceJanuary; sliceFebruary]) /\
  cache (schedule (twoBootstraps ++ [Resume 1]) (sampleStore, [])).1 !! signature []
  = Some (mergeSlices [sliceJanuaryRevised; sliceFebruary]) /\
  mergeSlices [sliceJanuaryRevised; sliceFebruary]
  <> mergeSlices [sliceJanuary; sliceFebruary] /\
  fetched (schedule (twoBootstraps ++ [Resume 1]) (sampleStore, [])).1
  = ["./data/2024-01.json"; "./data/2024-02.json";
     "./data/2024-01.json"; "./data/2024-02.json"].
Proof. repeat split; try (vm_compute; reflexivity). discriminate. Qed.

Lemma fallback_failure_sample :
  rejectsKeepingCache (ensurePartitions brokenNetwork filters2099) sampleStore.
Proof.
  refine (proj1 (fallback_failure_rejects brokenNetwork filters2099 sampleStore
                   partitionFebruary notFound _ _ _ _ _)).
  - vm_compute. reflexivity.
  - vm_compute. reflexivity.
  - right. left. reflexivity.
  - vm_compute. reflexivity.
  - reflexivity.
Defined.

(** The sample store, asked for a month that has no partition, requests
    both partitions and returns their three rows. *)
Example setFilters_unknown_month :
  fetched (setFilters sampleNetwork filters2099 sampleStore).2
  = ["./data/2024-01.json"; "./data/2024-02.json"] /\
  match (setFilters sampleNetwork filters2099 sampleStore).1 with
  | Ok (_, rs) => length rs = 3%nat
  | Throw _ => False
  end.
Proof. split; vm_compute; reflexivity. Qed.

(** * Further properties of the loader *)

(** ** Row index *)

Section RowIndex.

Lemma indexColumns_other (name : string) (cols : list string) (idx : nat)
    (index : gmap string nat) :
  name ∉ cols -> indexColumns idx cols index !! name = index !! name.
Proof.
  revert idx index. induction cols as [|c cols IH]; intros idx index Hnot; [reflexivity|].
  apply not_elem_of_cons in Hnot as [Hne Hnot]. cbn [indexColumns].
  rewrite IH by exact Hnot. now rewrite lookup_insert_ne by congruence.
Qed.

Lemma indexColumns_last (name : string) (pre post : list string) (idx : nat)
    (index : gmap string nat) :
  name ∉ post ->
  indexColumns idx (pre ++ name :: post) index !! name = Some (idx + length pre)%nat.
Proof.
  intros Hpost. revert idx index. induction pre as [|c pre IH]; intros idx index.
  - cbn [app indexColumns length]. rewrite indexColumns_other by exact Hpost.
    rewrite lookup_insert_eq. f_equal. lia.
  - cbn [app indexColumns length]. rewrite IH. f_equal. lia.
Qed.

(** A column name is looked up to the position of its last occurrence: a
    later column of the same name hides an earlier one. *)
Theorem createColumnIndex_last_wins (name : string) (pre post : list string) :
  name ∉ post ->
  createColumnIndex (pre ++ name :: post) !! name = Some (length pre).
Proof. intros Hpost. unfold createColumnIndex. now rewrite indexColumns_last. Qed.

(** A name is unknown to the index exactly when it is not a column; so
    position 0 and "not found" never collide. *)
Theorem createColumnIndex_unknown (name : string) (cols : list string) :
  createColumnIndex cols !! name = None <-> name ∉ cols.
Proof.
  split.
  - intros Hnone Hin. apply list_elem_of_split_r in Hin as (pre & post & -> & Hpost).
    unfold createColumnIndex in Hnone.
    rewrite indexColumns_last in Hnone by exact Hpost. discriminate.
  - intros Hnot. unfold createColumnIndex. rewrite indexColumns_other by exact Hnot.
    apply lookup_empty.
Qed.

(** When the column names are unique the index is the inverse of the
    column array. *)
Theorem createColumnIndex_inverse (cols : list string) (name : string) (i : nat) :
  NoDup cols ->
  (createColumnIndex cols !! name = Some i <-> cols !! i = Some name).
Proof.
  intros Hnd. split.
  - intros Hlook.
    destruct (decide (name ∈ cols)) as [Hin|Hnot].
    + apply list_elem_of_split_r in Hin as (pre & post & -> & Hpost).
      unfold createColumnIndex in Hlook.
      rewrite indexColumns_last in Hlook by exact Hpost.
      injection Hlook as <-. now rewrite list_lookup_middle.
    + unfold createColumnIndex in Hlook.
      rewrite indexColumns_other, lookup_empty in Hlook by exact Hnot. discriminate.
  - intros Hi. apply list_elem_of_split_length in Hi as (pre & post & -> & ->).
    unfold createColumnIndex. rewrite indexColumns_last; [reflexivity|].
    apply NoDup_app in Hnd as (_ & _ & Hnd). now apply NoDup_cons in Hnd as [Hnot _].
Qed.

End RowIndex.

Lemma createColumnIndex_last_wins_sample :
  createColumnIndex (["spend"; "store"] ++ "spend" :: ["clicks"]) !! "spend" = Some 2%nat.
Proof.
  apply (createColumnIndex_last_wins "spend" ["spend"; "store"] ["clicks"]).
  apply not_elem_of_cons. split; [discriminate|apply not_elem_of_nil].
Defined.

Lemma createColumnIndex_inverse_sample :
  createColumnIndex sampleColumns !! "targetingType" = Some 1%nat.
Proof.
  apply (createColumnIndex_inverse sampleColumns "targetingType" 1).
  - apply (bool_decide_unpack (NoDup sampleColumns)). vm_compute. exact I.
  - reflexivity.
Defined.

(** ** Filter engine *)

Section FilterEngineMore.

Variable columnIndex : gmap string nat.

(** [filterRows] as one filter: the early return is the case where every
    row passes. *)
Lemma filterRows_filter (rows : list Row) (filters : FilterState) :
  filterRows columnIndex rows filters
  = List.filter (fun row => forallb (matchesEntry columnIndex row)
                                    (List.filter isConstraint filters)) rows.
Proof.
  unfold filterRows. destruct (List.filter isConstraint filters) as [|e entries] eqn:He.
  - cbn. symmetry. now apply filter_all.
  - reflexivity.
Qed.

Lemma filter_sublist {A : Type} (p : A -> bool) (l : list A) : sublist (List.filter p l) l.
Proof.
  induction l as [|x l IH]; cbn [List.filter]; [constructor|].
  destruct (p x); now constructor.
Qed.

Lemma filter_filter {A : Type} (p q : A -> bool) (l : list A) :
  List.filter q (List.filter p l) = List.filter (fun x => p x && q x) l.
Proof.
  induction l as [|x l IH]; [reflexivity|]. cbn [List.filter].
  destruct (p x) eqn:Hp; cbn [List.filter andb]; [|exact IH].
  destruct (q x); now rewrite IH.
Qed.

(** The rows [filterRows] returns are rows of the input, in the order of
    the input: nothing is added, reordered or repeated. *)
Theorem filterRows_sublist (rows : list Row) (filters : FilterState) :
  sublist (filterRows columnIndex rows filters) rows.
Proof. rewrite filterRows_filter. apply filter_sublist. Qed.

(** A row is kept exactly when it passes every constraint the filter
    state really has. *)
Lemma filterRows_In (rows : list Row) (filters : FilterState) (row : Row) :
  In row (filterRows columnIndex rows filters)
  <-> In row rows /\
      forall e, In e filters -> isConstraint e = true ->
                matchesEntry columnIndex row e = true.
Proof.
  rewrite filterRows_filter, filter_In, forallb_forall.
  split; intros [Hin Hall]; (split; [exact Hin|]).
  - intros e He Hc. apply Hall. now apply filter_In.
  - intros e [He Hc]%filter_In. now apply Hall.
Qed.

(** Filtering twice by the same filter state changes nothing more. *)
Theorem filterRows_idempotent (rows : list Row) (filters : FilterState) :
  filterRows columnIndex (filterRows columnIndex rows filters) filters
  = filterRows columnIndex rows filters.
Proof.
  rewrite !filterRows_filter, filter_filter. apply filter_agree.
  intros row. now destruct (forallb _ _).
Qed.

(** Constraints add up: filtering by two filter objects one after the other
    is filtering by their entries together, in either order. *)
Theorem filterRows_app (rows : list Row) (f g : FilterState) :
  filterRows columnIndex rows (f ++ g)
  = filterRows columnIndex (filterRows columnIndex rows f) g /\
  filterRows columnIndex rows (f ++ g) = filterRows columnIndex rows (g ++ f).
Proof.
  rewrite !filterRows_filter, filter_filter, !List.filter_app. split.
  - apply filter_agree. intros row. now rewrite forallb_app.
  - apply filter_agree. intros row. rewrite !forallb_app. apply andb_comm.
Qed.

Lemma strictEquals_eq (a b : JS.value) :
  JS.strictEquals a b = true <-> a = b /\ b <> JS.Num JS.NaN.
Proof.
  unfold JS.strictEquals.
  destruct a as [| |x|[| | |p]|s], b as [| |y|[| | |q]|t];
    rewrite ?bool_decide_eq_true; split; try (intros [? ?]; congruence);
    try discriminate; try (intros ->; split; [reflexivity|discriminate]);
    try (intros H; split; [exact H|discriminate]).
Qed.

(** A scalar constraint on a column of the schema keeps the rows whose cell
    is strictly equal to the value: same type and same value, no coercion;
    a [NaN] value keeps nothing. *)
Theorem scalar_constraint_is_strict (column : string) (idx : nat) (v : JS.value)
    (rows : list Row) (row : Row) :
  columnIndex !! column = Some idx ->
  isConstraint (column, Scalar v) = true ->
  (In row (filterRows columnIndex rows [(column, Scalar v)])
   <-> In row rows /\ cellAt row (Some idx) = v /\ v <> JS.Num JS.NaN).
Proof.
  intros Hidx Hc. rewrite filterRows_In. split; intros [Hin H]; (split; [exact Hin|]).
  - specialize (H _ (or_introl eq_refl) Hc). unfold matchesEntry in H.
    simpl fst in H. simpl snd in H. rewrite Hidx in H.
    apply orb_true_iff in H as [H|H]; [|now apply strictEquals_eq].
    apply strictEquals_eq in H as [-> _]. discriminate.
  - intros e [<-|[]] _. unfold matchesEntry. simpl fst. simpl snd. rewrite Hidx.
    apply orb_true_iff. right. now apply strictEquals_eq.
Qed.

(** [===] and [includes] disagree on [NaN]: as a scalar value it matches no
    cell, inside a sequence it matches the cells that are [NaN]. *)
Theorem NaN_constraint (column : string) (idx : nat) (rows : list Row) :
  columnIndex !! column = Some idx ->
  filterRows columnIndex rows [(column, Scalar (JS.Num JS.NaN))] = [] /\
  filterRows columnIndex rows [(column, Arr [JS.Num JS.NaN])]
  = List.filter (fun row => bool_decide (cellAt row (Some idx) = JS.Num JS.NaN)) rows.
Proof.
  intros Hidx. rewrite !filterRows_filter. cbn [List.filter isConstraint snd forallb].
  split.
  - induction rows as [|row rows IH]; [reflexivity|]. cbn [List.filter].
    unfold matchesEntry at 1. simpl fst. simpl snd. rewrite Hidx.
    replace (JS.strictEquals (cellAt row (Some idx)) (JS.Num JS.NaN)) with false.
    + exact IH.
    + symmetry. apply not_true_iff_false. intros [_ H]%strictEquals_eq. now apply H.
  - apply filter_agree. intros row. unfold matchesEntry. simpl fst. simpl snd.
    rewrite Hidx. cbn. unfold JS.sameValueZero. rewrite !orb_false_r, andb_true_r.
    apply bool_decide_ext. split; congruence.
Qed.

End FilterEngineMore.

Lemma scalar_constraint_sample :
  In [JS.Str "B"; JS.Str "auto"; JS.Num (JS.ofZ 6)]
     (filterRows sampleIndex sampleRows [("store", Scalar (JS.Str "B"))]).
Proof.
  apply (scalar_constraint_is_strict sampleIndex "store" 0 (JS.Str "B") sampleRows
           [JS.Str "B"; JS.Str "auto"; JS.Num (JS.ofZ 6)] eq_refl eq_refl).
  split; [right; right; left; reflexivity|]. split; [reflexivity|discriminate].
Defined.

Lemma NaN_constraint_sample :
  filterRows sampleIndex sampleRows [("spend", Scalar (JS.Num JS.NaN))] = [].
Proof. apply (NaN_constraint sampleIndex "spend" 2 sampleRows eq_refl). Defined.

(** ** Pivot aggregator *)

(** The keys of a list, each kept the first time it occurs. *)
Definition firstSeen (keys : list string) : list string :=
  fold_left (fun seen k => if bool_decide (k ∈ seen) then seen else seen ++ [k]) keys [].

Section PivotMore.

Variables (total : nat) (columnIndex : gmap string nat).
Variables (groupBy : list string) (metrics : list Metric).

Lemma pivotStep_keys (table : list (string * PivotRow)) (row : Row) :
  map fst (pivotStep total columnIndex groupBy metrics table row)
  = let k := groupKeyOf columnIndex groupBy row in
    if bool_decide (k ∈ map fst table) then map fst table else map fst table ++ [k].
Proof. unfold pivotStep. apply setProp_keys. Qed.

Lemma pivot_keys (rs : list Row) (table : list (string * PivotRow)) :
  map fst (fold_left (pivotStep total columnIndex groupBy metrics) rs table)
  = fold_left (fun seen k => if bool_decide (k ∈ seen) then seen else seen ++ [k])
              (map (groupKeyOf columnIndex groupBy) rs) (map fst table).
Proof.
  revert table. induction rs as [|r rs IH]; intros table; [reflexivity|].
  cbn [fold_left map]. rewrite IH. now rewrite pivotStep_keys.
Qed.

Lemma setProp_rows (k : string) (row : Row) (f : PivotRow -> PivotRow) (d : PivotRow)
    (table : list (string * PivotRow)) :
  (forall b, rows (f b) = rows b ++ [row]) -> rows d = [] ->
  Permutation
    (concat (map (fun e => rows e.2) (setProp k (f (default d (getProp k table))) table)))
    (row :: concat (map (fun e => rows e.2) table)).
Proof.
  intros Hf Hd. induction table as [|[k' b'] table IH]; cbn [setProp getProp].
  - cbn. rewrite Hf, Hd. cbn. reflexivity.
  - destruct (decide (k' = k)) as [->|Hne]; cbn [map concat snd default].
    + rewrite Hf. rewrite <- app_assoc. cbn [app]. symmetry. apply Permutation_middle.
    + rewrite IH. symmetry. apply Permutation_middle.
Qed.

Lemma pivot_rows (rs : list Row) (table : list (string * PivotRow)) :
  Permutation
    (concat (map (fun e => rows e.2)
                 (fold_left (pivotStep total columnIndex groupBy metrics) rs table)))
    (concat (map (fun e => rows e.2) table) ++ rs).
Proof.
  revert table. induction rs as [|r rs IH]; intros table; cbn [fold_left].
  - now rewrite app_nil_r.
  - rewrite IH. unfold pivotStep.
    pose proof (setProp_rows (groupKeyOf columnIndex groupBy r) r
                  (fun bucket =>
                     {| key := key bucket;
                        values := fold_left (accumulate total columnIndex r) metrics
                                            (values bucket);
                        rows := rows bucket ++ [r] |})
                  (newBucket (groupKeyOf columnIndex groupBy r) metrics) table
                  (fun b => eq_refl) eq_refl) as Hstep.
    cbn beta in Hstep.
    destruct (getProp (groupKeyOf columnIndex groupBy r) table) as [b|];
      cbn [default] in Hstep; rewrite Hstep; cbn [app]; apply Permutation_middle.
Qed.

Lemma accumulate_is_Some (row : Row) (ms : list Metric) (vals : gmap string JS.number)
    (k : string) :
  is_Some (fold_left (accumulate total columnIndex row) ms vals !! k)
  <-> is_Some (vals !! k) \/ k ∈ map name ms.
Proof.
  revert vals. induction ms as [|m ms IH]; intros vals; cbn [fold_left map].
  - rewrite elem_of_nil. tauto.
  - rewrite IH, elem_of_cons. unfold accumulate.
    destruct (decide (k = name m)) as [->|Hne].
    + rewrite lookup_insert_eq. split; [intros _; right; now left|intros _; left; eauto].
    + rewrite lookup_insert_ne by congruence. tauto.
Qed.

Lemma valuesAfter_is_Some (rs : list Row) (k : string) :
  is_Some (valuesAfter total columnIndex metrics rs !! k) <-> k ∈ map name metrics.
Proof.
  unfold valuesAfter.
  assert (Hinit : is_Some (initialValues metrics !! k) <-> k ∈ map name metrics).
  { unfold initialValues. rewrite initialValues_lookup, lookup_empty.
    destruct (bool_decide (k ∈ map name metrics)) eqn:Hk.
    - apply bool_decide_eq_true in Hk. split; eauto.
    - apply bool_decide_eq_false in Hk. split; [intros [? ?]; discriminate|tauto]. }
  revert Hinit. generalize (initialValues metrics).
  induction rs as [|r rs IH]; intros vals Hvals; cbn [fold_left]; [exact Hvals|].
  apply IH. rewrite accumulate_is_Some. tauto.
Qed.

End PivotMore.

Lemma firstSeen_NoDup_from (keys seen : list string) :
  NoDup seen ->
  NoDup (fold_left (fun seen k => if bool_decide (k ∈ seen) then seen else seen ++ [k])
                   keys seen).
Proof.
  revert seen. induction keys as [|k keys IH]; intros seen Hnd; [exact Hnd|].
  cbn [fold_left]. apply IH. destruct (bool_decide (k ∈ seen)) eqn:Hk; [exact Hnd|].
  apply bool_decide_eq_false in Hk. apply NoDup_app. split; [exact Hnd|]. split.
  - intros x Hx Hx'. apply list_elem_of_singleton in Hx'. now subst.
  - apply NoDup_singleton.
Qed.

Lemma buildPivot_keys (rs : list Row) (columnIndex : gmap string nat)
    (groupBy : list string) (metrics : list Metric) :
  map key (buildPivot rs columnIndex groupBy metrics)
  = firstSeen (map (groupKeyOf columnIndex groupBy) rs).
Proof.
  unfold buildPivot, firstSeen.
  etrans; [|exact (pivot_keys (length rs) columnIndex groupBy metrics rs [])].
  destruct (pivotInv_fold (length rs) columnIndex groupBy metrics rs [] []
              (pivotInv_nil _ _ _ _)) as (Hnd & _ & Hbuckets).
  cbn [app] in Hbuckets. rewrite map_map. apply map_ext_in. intros [k b] Hin.
  cbn. now destruct (Hbuckets k b (In_getProp k b _ Hnd Hin)).
Qed.

(** The pivot has one bucket per group key, in the order in which the keys
    are first met among the rows. *)
Theorem buildPivot_first_seen_order (rs : list Row) (columnIndex : gmap string nat)
    (groupBy : list string) (metrics : list Metric) :
  map key (buildPivot rs columnIndex groupBy metrics)
  = firstSeen (map (groupKeyOf columnIndex groupBy) rs) /\
  NoDup (map key (buildPivot rs columnIndex groupBy metrics)).
Proof.
  split; [apply buildPivot_keys|]. rewrite buildPivot_keys.
  apply firstSeen_NoDup_from. apply NoDup_nil_2.
Qed.

Lemma buildPivot_rows_perm (rs : list Row) (columnIndex : gmap string nat)
    (groupBy : list string) (metrics : list Metric) :
  Permutation (concat (map rows (buildPivot rs columnIndex groupBy metrics))) rs.
Proof.
  unfold buildPivot. rewrite map_map.
  now rewrite (pivot_rows (length rs) columnIndex groupBy metrics rs []).
Qed.

(** Every row goes to exactly one bucket: the rows of the buckets, taken
    together, are the rows of the input, and every bucket holds, in input
    order, at least one row and only rows of its own key. *)
Theorem buildPivot_partitions_rows (rs : list Row) (columnIndex : gmap string nat)
    (groupBy : list string) (metrics : list Metric) :
  Permutation (concat (map rows (buildPivot rs columnIndex groupBy metrics))) rs /\
  forall b, In b (buildPivot rs columnIndex groupBy metrics) ->
    rows b <> [] /\ sublist (rows b) rs /\
    Forall (fun row => groupKeyOf columnIndex groupBy row = key b) (rows b).
Proof.
  split; [apply buildPivot_rows_perm|].
  intros b Hb. split; [|split].
  all: destruct (buildPivot_bucket _ _ _ _ _ Hb) as (Hrows & Hne & _).
  - exact Hne.
  - rewrite Hrows. unfold groupRows.
    clear. induction rs as [|r rs IH]; cbn [List.filter]; [constructor|].
    destruct (bool_decide _); now constructor.
  - rewrite Hrows. unfold groupRows.
    apply Forall_forall. intros row Hrow%list_elem_of_In.
    apply filter_In in Hrow as [_ Hk]. now apply bool_decide_eq_true in Hk.
Qed.

(** The [values] object of a bucket has one property per metric name and
    no other, when no metric is named [__proto__]: an assignment to that
    name goes to the setter of [Object.prototype] and creates no
    property. *)
Theorem bucket_values_keys (rs : list Row) (columnIndex : gmap string nat)
    (groupBy : list string) (metrics : list Metric) (b : PivotRow) (k : string) :
  "__proto__" ∉ map name metrics ->
  In b (buildPivot rs columnIndex groupBy metrics) ->
  (is_Some (values b !! k) <-> k ∈ map name metrics).
Proof.
  intros _ Hb. destruct (buildPivot_bucket _ _ _ _ _ Hb) as (_ & _ & Hvals).
  rewrite Hvals. apply valuesAfter_is_Some.
Qed.

Lemma bucket_values_keys_sample :
  is_Some (values (storeA [spendSum; clicksSum]) !! "Clicks").
Proof.
  refine (proj2 (bucket_values_keys sampleRows sampleIndex ["store"] [spendSum; clicksSum]
                   (storeA [spendSum; clicksSum]) "Clicks" _ (storeA_bucket _)) _).
  - intros [H|H]%elem_of_cons; [discriminate|].
    apply elem_of_cons in H as [H|H]; [discriminate|]. now apply elem_of_nil in H.
  - apply elem_of_cons. right. apply elem_of_cons. left. reflexivity.
Defined.

(** ** Partition fetcher: the CSV reader *)

(** Whether a character occurs in a string. *)
Fixpoint hasChar (c : ascii) (s : string) : bool :=
  match s with
  | EmptyString => false
  | String a r => bool_decide (a = c) || hasChar c r
  end.

(** A line of CSV text for some cells, and the text for some lines. *)
Definition csvLine (cells : list string) : string := Str.join "," cells.
Definition csvText (lines : list (list string)) : string :=
  Str.join (Str.single "010") (map csvLine lines).

Section Csv.

Lemma split_no_sep (sep : ascii) (s : string) :
  hasChar sep s = false -> Str.split sep s = [s].
Proof.
  induction s as [|a s IH]; cbn [hasChar Str.split]; [reflexivity|].
  intros [Ha Hs]%orb_false_iff. apply bool_decide_eq_false in Ha.
  rewrite decide_False by exact Ha. now rewrite IH.
Qed.

Lemma split_app_sep (sep : ascii) (s r : string) :
  hasChar sep s = false ->
  Str.split sep (s +:+ String sep r) = s :: Str.split sep r.
Proof.
  induction s as [|a s IH]; cbn [hasChar].
  - intros _. rewrite app_nil. cbn [Str.split]. now rewrite decide_True.
  - intros [Ha Hs]%orb_false_iff. apply bool_decide_eq_false in Ha.
    rewrite app_cons. cbn [Str.split]. rewrite decide_False by exact Ha.
    now rewrite IH.
Qed.

(** Splitting undoes joining when no part holds the separator. *)
Lemma split_join (sep : ascii) (parts : list string) :
  parts <> [] -> Forall (fun s => hasChar sep s = false) parts ->
  Str.split sep (Str.join (Str.single sep) parts) = parts.
Proof.
  induction parts as [|s parts IH]; [contradiction|]. intros _ Hall.
  apply Forall_cons in Hall as [Hs Hall]. destruct parts as [|s' parts].
  - now apply split_no_sep.
  - cbn [Str.join]. unfold Str.single at 1. rewrite app_cons, app_nil.
    rewrite split_app_sep by exact Hs. f_equal. now apply IH.
Qed.

Lemma hasChar_app (c : ascii) (s t : string) :
  hasChar c (s +:+ t) = hasChar c s || hasChar c t.
Proof.
  induction s as [|a s IH]; [reflexivity|].
  rewrite app_cons. cbn [hasChar]. now rewrite IH, orb_assoc.
Qed.

Lemma hasChar_join (c : ascii) (sep : string) (parts : list string) :
  hasChar c sep = false -> Forall (fun s => hasChar c s = false) parts ->
  hasChar c (Str.join sep parts) = false.
Proof.
  intros Hsep. induction parts as [|s parts IH]; [reflexivity|].
  intros Hall. apply Forall_cons in Hall as [Hs Hall]. destruct parts as [|s' parts].
  - exact Hs.
  - cbn [Str.join]. rewrite !hasChar_app, Hs, Hsep. now apply IH.
Qed.

Lemma split_csvLine (cells : list string) :
  cells <> [] -> Forall (fun s => hasChar "," s = false) cells ->
  Str.split "," (csvLine cells) = cells.
Proof. apply (split_join ","%char). Qed.

(** The reader gives back the table a text was written from: when, once
    trimmed, the text is a header line and one line per row, cells
    separated by commas, and no cell holds a comma or a line feed, the
    slice has the header cells as columns and, for each row, its cells as
    strings. The store is not touched. *)
Theorem parseCsv_reads_table (text : string) (header : list string)
    (table : list (list string)) (st : Store) :
  Str.trim text = csvText (header :: table) ->
  Forall (fun cells =>
            cells <> [] /\
            Forall (fun s => hasChar "," s = false /\ hasChar "010" s = false) cells)
         (header :: table) ->
  parseCsv text st
  = (Ok {| columns := header; data := map (map JS.Str) table |}, st).
Proof.
  intros Htrim Hall. unfold parseCsv. rewrite Htrim. unfold csvText.
  rewrite split_join.
  - cbn [map]. unfold ret. apply Forall_cons in Hall as [[Hne Hheader] Hrows].
    rewrite split_csvLine; [|exact Hne|eapply Forall_impl; [exact Hheader|]; cbn; tauto].
    do 3 f_equal. rewrite map_map. apply map_ext_in. intros cells Hin. f_equal.
    rewrite Forall_forall in Hrows. destruct (Hrows cells) as [Hc Hcells].
    { now apply list_elem_of_In. }
    apply split_csvLine; [exact Hc|]. eapply Forall_impl; [exact Hcells|]. cbn. tauto.
  - discriminate.
  - apply Forall_forall. intros line Hline%list_elem_of_In.
    apply in_map_iff in Hline as (cells & <- & Hin).
    rewrite Forall_forall in Hall. destruct (Hall cells) as [_ Hcells].
    { now apply list_elem_of_In. }
    apply hasChar_join; [reflexivity|]. eapply Forall_impl; [exact Hcells|]. cbn. tauto.
Qed.

Lemma filter_none {A : Type} (p : A -> bool) (l : list A) :
  (forall x, In x l -> p x = false) -> List.filter p l = [].
Proof.
  induction l as [|x l IH]; intros H; [reflexivity|]. cbn [List.filter].
  rewrite (H x (or_introl eq_refl)). apply IH. intros y Hy. apply H. now right.
Qed.

Lemma parseCsv_cells (text : string) (st st' : Store) (slice : Slice) :
  parseCsv text st = (Ok slice, st') ->
  Forall (Forall (fun cell => exists s, cell = JS.Str s)) (data slice).
Proof.
  unfold parseCsv, ret, throw. destruct (Str.split _ _) as [|header lines]; [discriminate|].
  intros [= <- _]. cbn [data]. apply Forall_forall. intros row Hrow%list_elem_of_In.
  apply in_map_iff in Hrow as (line & <- & _). apply Forall_forall.
  intros cell Hcell%list_elem_of_In. apply in_map_iff in Hcell as (s & <- & _). eauto.
Qed.

(** Every cell of a slice read from CSV is a string, and [===] does not
    coerce: so a numeric filter value on a column of such a slice keeps no
    row at all, whatever digits the cells hold. *)
Theorem csv_numeric_constraint_keeps_nothing (text : string) (st st' : Store)
    (slice : Slice) (column : string) (n : JS.number) :
  parseCsv text st = (Ok slice, st') ->
  column ∈ columns slice ->
  filterRows (createColumnIndex (columns slice)) (data slice)
             [(column, Scalar (JS.Num n))] = [].
Proof.
  intros Hparse Hcol. pose proof (parseCsv_cells _ _ _ _ Hparse) as Hcells.
  destruct (createColumnIndex (columns slice) !! column) as [idx|] eqn:Hidx.
  2:{ exfalso. apply list_elem_of_split_r in Hcol as (pre & post & Heq & Hpost).
      unfold createColumnIndex in Hidx.
      rewrite Heq, indexColumns_last in Hidx by exact Hpost. discriminate. }
  rewrite filterRows_filter. cbn [List.filter isConstraint snd].
  apply filter_none. intros row Hrow. rewrite Forall_forall in Hcells.
  specialize (Hcells row (proj2 (list_elem_of_In _ _) Hrow)).
  cbn [forallb]. rewrite andb_true_r. unfold matchesEntry. simpl fst. simpl snd.
  rewrite Hidx. cbn [cellAt]. destruct (row !! idx) as [cell|] eqn:Hcell; cbn [default].
  - rewrite Forall_forall in Hcells. destruct (Hcells cell) as [s ->].
    { eapply list_elem_of_lookup_2; exact Hcell. }
    now destruct n.
  - now destruct n.
Qed.

End Csv.

Definition sampleCsv : string :=
  "store,spend" +:+ Str.single "010" +:+ "A,2" +:+ Str.single "010" +:+ "B,6"
  +:+ Str.single "010".

Lemma parseCsv_sample :
  parseCsv sampleCsv sampleStore
  = (Ok {| columns := ["store"; "spend"];
           data := map (map JS.Str) [["A"; "2"]; ["B"; "6"]] |}, sampleStore).
Proof.
  apply (parseCsv_reads_table sampleCsv ["store"; "spend"] [["A"; "2"]; ["B"; "6"]]).
  - vm_compute. reflexivity.
  - repeat (constructor; [split; [discriminate|repeat constructor]|]). constructor.
Defined.

Lemma csv_numeric_constraint_sample :
  filterRows (createColumnIndex ["store"; "spend"])
             (map (map JS.Str) [["A"; "2"]; ["B"; "6"]])
             [("spend", Scalar (JS.Num (JS.ofZ 2)))] = [].
Proof.
  apply (csv_numeric_constraint_keeps_nothing sampleCsv sampleStore sampleStore
           {| columns := ["store"; "spend"];
              data := map (map JS.Str) [["A"; "2"]; ["B"; "6"]] |}
           "spend" (JS.ofZ 2)).
  - vm_compute. reflexivity.
  - apply elem_of_cons. right. apply elem_of_cons. left. reflexivity.
Defined.

(** ** Data store *)

Section StoreMore.

(** The store after a resolution: the one before, with some requests
    logged and at most one slice cached under the signature. *)
Lemma ensurePartitions_after (net : Network) (filters : FilterState) (st : Store) :
  exists urls,
    (ensurePartitions net filters st).2 = logged urls st \/
    exists slice,
      cache st !! signature filters = None /\
      ensurePartitions net filters st
      = (Ok slice, cached (signature filters) slice (logged urls st)).
Proof.
  pose proof (ensurePartitions_cases net filters st) as Hcases.
  destruct (cache st !! signature filters) as [slice|] eqn:Hc.
  - exists []. left. rewrite Hcases. cbn. now rewrite logged_nil.
  - destruct Hcases as [urls [[e He]|[slice Hs]]]; exists urls.
    + left. now rewrite He.
    + right. eauto.
Qed.

(** What a resolution leaves alone. *)
Lemma ensurePartitions_rest (net : Network) (filters : FilterState) (st : Store) :
  let st' := (ensurePartitions net filters st).2 in
  metadata st' = metadata st /\
  partitionsByFilter st' = partitionsByFilter st /\
  activeFilters st' = activeFilters st /\
  emitted st' = emitted st.
Proof.
  destruct (ensurePartitions_after net filters st) as [urls [Hst|(slice & _ & Hrun)]];
    cbn zeta; [rewrite Hst|rewrite Hrun]; cbn; auto.
Qed.

(** A resolution changes neither the manifest, the partition index, the
    active filters nor the events; it only adds to the log of requests; it
    leaves the cache alone when it throws, and otherwise touches at most
    the entry of the signature it resolves. *)
Theorem ensurePartitions_frame (net : Network) (filters : FilterState) (st : Store) :
  let st' := (ensurePartitions net filters st).2 in
  metadata st' = metadata st /\
  partitionsByFilter st' = partitionsByFilter st /\
  activeFilters st' = activeFilters st /\
  emitted st' = emitted st /\
  (exists urls, fetched st' = fetched st ++ urls) /\
  (forall e, (ensurePartitions net filters st).1 = Throw e -> cache st' = cache st) /\
  (forall k, k <> signature filters -> cache st' !! k = cache st !! k).
Proof.
  destruct (ensurePartitions_after net filters st) as [urls [Hst|(slice & Hc & Hrun)]]; cbn zeta.
  - rewrite Hst. cbn. repeat split; eauto.
  - rewrite Hrun. cbn. repeat split; eauto; try discriminate.
    intros k Hk. now rewrite lookup_insert_ne by congruence.
Qed.

Lemma indexPartitions_other (k : string) (parts : list PartitionDescriptor)
    (index : gmap string PartitionDescriptor) :
  Forall (fun p => signature (part_filters p) <> k) parts ->
  fold_left (fun index part => <[JSON_stringify (part_filters part) := part]> index)
            parts index !! k
  = index !! k.
Proof.
  revert index. induction parts as [|p parts IH]; intros index Hall; [reflexivity|].
  apply Forall_cons in Hall as [Hp Hall]. cbn [fold_left]. rewrite IH by exact Hall.
  now rewrite lookup_insert_ne by exact Hp.
Qed.

Lemma indexPartitions_last (p : PartitionDescriptor) (pre post : list PartitionDescriptor) :
  Forall (fun q => signature (part_filters q) <> signature (part_filters p)) post ->
  indexPartitions (pre ++ p :: post) !! signature (part_filters p) = Some p.
Proof.
  intros Hpost. unfold indexPartitions. rewrite fold_left_app. cbn [fold_left].
  rewrite indexPartitions_other by exact Hpost. apply lookup_insert_eq.
Qed.

Lemma last_match {A : Type} (P : A -> Prop) `{!forall x, Decision (P x)} (l : list A) :
  Exists P l ->
  exists pre x post, l = pre ++ x :: post /\ P x /\ Forall (fun y => ~ P y) post.
Proof.
  induction l as [|a l IH]; intros Hex; [now apply Exists_nil in Hex|].
  destruct (decide (Exists P l)) as [Hl|Hl].
  - destruct (IH Hl) as (pre & x & post & -> & Hx & Hpost).
    exists (a :: pre), x, post. auto.
  - apply Exists_cons in Hex as [Ha|Hl']; [|contradiction].
    exists [], a, l. split; [reflexivity|]. split; [exact Ha|].
    now apply Forall_Exists_neg.
Qed.

(** What the index built by [fetchMetadata] holds under a key: the last
    partition of the manifest that has this signature, if there is one. *)
Lemma indexPartitions_lookup (k : string) (parts : list PartitionDescriptor) :
  (indexPartitions parts !! k = None /\
   Forall (fun p => signature (part_filters p) <> k) parts) \/
  (exists pre p post,
     parts = pre ++ p :: post /\ signature (part_filters p) = k /\
     Forall (fun q => signature (part_filters q) <> k) post /\
     indexPartitions parts !! k = Some p).
Proof.
  destruct (decide (Exists (fun p => signature (part_filters p) = k) parts)) as [Hex|Hno].
  - right. apply last_match in Hex as (pre & p & post & -> & Hp & Hpost); [|apply _].
    exists pre, p, post. repeat split; try assumption.
    rewrite <- Hp. apply indexPartitions_last. now rewrite Hp.
  - left. apply Forall_Exists_neg in Hno. split; [|exact Hno].
    unfold indexPartitions. rewrite indexPartitions_other by exact Hno. apply lookup_empty.
Qed.

(** The index [fetchMetadata] returns next to the manifest finds a
    partition by the signature of its filters: a key is absent exactly when
    no declared partition has this signature, and otherwise leads to the
    last declared partition that has it. *)
Theorem fetchMetadata_index (net : Network) (md : Metadata)
    (index : gmap string PartitionDescriptor) (k : string) :
  fetchMetadata net = Ok (md, index) ->
  (index !! k = None
   <-> Forall (fun p => signature (part_filters p) <> k) (partitions md)) /\
  (forall p, index !! k = Some p <->
     exists pre post,
       partitions md = pre ++ p :: post /\ signature (part_filters p) = k /\
       Forall (fun q => signature (part_filters q) <> k) post).
Proof.
  unfold fetchMetadata. destruct (fetchIndex net) as [r|]; [|discriminate].
  destruct (negb (ok r)); [discriminate|]. destruct (json r) as [md'|]; [|discriminate].
  intros [= -> <-]. split.
  - split.
    + intros Hnone. destruct (indexPartitions_lookup k (partitions md))
        as [[_ Hall]|(pre & p & post & _ & _ & _ & Hsome)]; [exact Hall|congruence].
    + intros Hall. unfold indexPartitions. rewrite indexPartitions_other by exact Hall.
      apply lookup_empty.
  - intros p. split.
    + intros Hsome. destruct (indexPartitions_lookup k (partitions md))
        as [[Hnone _]|(pre & p' & post & Hsplit & Hk & Hpost & Hsome')]; [congruence|].
      rewrite Hsome in Hsome'. injection Hsome' as <-. eauto.
    + intros (pre & post & -> & <- & Hpost). now apply indexPartitions_last.
Qed.

(** A filter state whose signature is that of one declared partition (the
    last one with this signature) and is not cached yet is resolved by
    requesting that partition alone; its slice is returned and cached. *)
Theorem exact_match_downloads_one_partition (net : Network) (filters : FilterState)
    (st : Store) (p : PartitionDescriptor) (pre post : list PartitionDescriptor)
    (slice : Slice) :
  partitionsByFilter st = indexPartitions (partitions (metadata st)) ->
  partitions (metadata st) = pre ++ p :: post ->
  signature (part_filters p) = signature filters ->
  Forall (fun q => signature (part_filters q) <> signature filters) post ->
  cache st !! signature filters = None ->
  (loadPartitionSlice net p (format (metadata st)) st).1 = Ok slice ->
  ensurePartitions net filters st
  = (Ok slice, cached (signature filters) slice (logged [partitionUrl p] st)).
Proof.
  intros Hindex Hparts Hsig Hpost Hmiss Hload.
  rewrite (ensurePartitions_exact net filters st p Hmiss).
  - now rewrite Hload.
  - rewrite Hindex, Hparts, <- Hsig. apply indexPartitions_last. now rewrite Hsig.
Qed.

Lemma getRows_frame (net : Network) (filters : FilterState) (st : Store) :
  (getRows net filters st).2 = (ensurePartitions net filters st).2.
Proof. apply getRows_state. Qed.

(** [setFilters], step by step. *)
Lemma setFilters_unfold (net : Network) (patch : FilterState) (st : Store) :
  setFilters net patch st
  = getRows net (spread (activeFilters st) patch)
      {| metadata := metadata st; partitionsByFilter := partitionsByFilter st;
         cache := cache st; activeFilters := spread (activeFilters st) patch;
         fetched := fetched st;
         emitted := emitted st ++ [spread (activeFilters st) patch] |}.
Proof. reflexivity. Qed.


(** [bootstrap] and [query] read: they leave the active filters and the
    events as they are, and [query] leaves the store as [bootstrap] does. *)
Theorem reads_leave_filters (net : Network) (groupBy : list string)
    (metrics : list Metric) (st : Store) :
  activeFilters (bootstrap net st).2 = activeFilters st /\
  emitted (bootstrap net st).2 = emitted st /\
  (query net groupBy metrics st).2 = (bootstrap net st).2.
Proof.
  assert (Hb : (bootstrap net st).2 = (ensurePartitions net (activeFilters st) st).2).
  { unfold bootstrap, bind, gets. apply getRows_state. }
  destruct (ensurePartitions_rest net (activeFilters st) st) as (_ & _ & Ha & He).
  rewrite Hb. split; [exact Ha|]. split; [exact He|].
  unfold query, bind, gets. rewrite <- (getRows_state net (activeFilters st) st).
  now destruct (getRows net (activeFilters st) st) as [[r|e] st'].
Qed.

End StoreMore.

Lemma fetchMetadata_index_sample :
  indexPartitions (partitions sampleMetadata) !! signature filters2099 = None.
Proof.
  apply (fetchMetadata_index sampleNetwork sampleMetadata
           (indexPartitions (partitions sampleMetadata)) (signature filters2099) eq_refl).
  repeat (constructor; [discriminate|]). constructor.
Defined.

Lemma exact_match_sample :
  ensurePartitions sampleNetwork (part_filters partitionJanuary) sampleStore
  = (Ok sliceJanuary,
     cached (signature (part_filters partitionJanuary)) sliceJanuary
            (logged [partitionUrl partitionJanuary] sampleStore)).
Proof.
  refine (exact_match_downloads_one_partition sampleNetwork (part_filters partitionJanuary)
            sampleStore partitionJanuary [] [partitionFebruary] sliceJanuary _ _ _ _ _ _).
  - reflexivity.
  - reflexivity.
  - reflexivity.
  - constructor; [discriminate|constructor].
  - vm_compute. reflexivity.
  - vm_compute. reflexivity.
Defined.

(** ** Merging a patch into the filters *)

(** Whether a property name is the decimal form of a natural number.
    These are the names JavaScript can take for integer indices (the array
    indices are those below 2^32 - 1); an object lists them first, in
    ascending order, whenever they were created. *)
Definition isIntegerKey (k : string) : bool :=
  match k with
  | EmptyString => false
  | String c r =>
      match JS.readDigits 10 0 0 k with
      | (_, _, EmptyString) => negb (bool_decide (c = "0"%char)) || bool_decide (r = EmptyString)
      | _ => false
      end
  end.

Section Spread.

Context {A : Type}.
Implicit Types (a b acc : list (string * A)) (k : string).

Lemma setProp_fresh k (v : A) acc :
  k ∉ map fst acc -> setProp k v acc = acc ++ [(k, v)].
Proof.
  induction acc as [|[k0 v0] acc IH]; cbn [map setProp app]; [reflexivity|].
  intros [Hne Hnot]%not_elem_of_cons. cbn in Hne.
  rewrite decide_False by congruence. now rewrite IH.
Qed.

Lemma assign_lookup b acc k :
  NoDup (map fst b) ->
  getProp k (fold_left (fun obj e => setProp e.1 e.2 obj) b acc)
  = match getProp k b with Some v => Some v | None => getProp k acc end.
Proof.
  revert acc. induction b as [|[k0 v0] b IH]; intros acc Hnd; [reflexivity|].
  cbn [map] in Hnd. apply NoDup_cons in Hnd as [Hfresh Hnd]. cbn [fold_left getProp].
  rewrite IH by exact Hnd. simpl fst. simpl snd.
  destruct (decide (k0 = k)) as [->|Hne].
  - rewrite (proj2 (getProp_None_keys k b) Hfresh). apply getProp_setProp_eq.
  - now rewrite getProp_setProp_ne by exact Hne.
Qed.

Lemma assign_keys b acc :
  NoDup (map fst b) ->
  map fst (fold_left (fun obj e => setProp e.1 e.2 obj) b acc)
  = map fst acc ++ List.filter (fun k => bool_decide (k ∉ map fst acc)) (map fst b).
Proof.
  revert acc. induction b as [|[k0 v0] b IH]; intros acc Hnd.
  - cbn. now rewrite app_nil_r.
  - cbn [map] in Hnd. apply NoDup_cons in Hnd as [Hfresh Hnd].
    cbn [fold_left map List.filter]. simpl fst. simpl snd.
    rewrite IH by exact Hnd. rewrite setProp_keys.
    destruct (decide (k0 ∈ map fst acc)) as [Hin|Hnot].
    + rewrite bool_decide_eq_true_2 by exact Hin.
      now rewrite (bool_decide_eq_false_2 (k0 ∉ map fst acc)) by tauto.
    + rewrite bool_decide_eq_false_2 by exact Hnot.
      rewrite (bool_decide_eq_true_2 (k0 ∉ map fst acc)) by exact Hnot.
      rewrite <- app_assoc. cbn [app]. do 2 f_equal.
      apply filter_ext_in_iff. intros k Hk. apply bool_decide_ext.
      rewrite not_elem_of_app, list_elem_of_singleton. split; [tauto|].
      intros Hka. split; [exact Hka|]. intros ->. apply Hfresh. now apply list_elem_of_In.
Qed.

Lemma assign_NoDup b acc :
  NoDup (map fst acc) ->
  NoDup (map fst (fold_left (fun obj e => setProp e.1 e.2 obj) b acc)).
Proof.
  revert acc. induction b as [|[k0 v0] b IH]; intros acc Hnd; [exact Hnd|].
  cbn [fold_left]. apply IH. now apply setProp_NoDup.
Qed.

(** Copying an object gives the object. *)
Lemma spread_copy a : NoDup (map fst a) -> spread [] a = a.
Proof.
  intros Hnd. unfold spread. cbn [fold_left].
  assert (H : forall acc, NoDup (map fst (acc ++ a)) ->
                fold_left (fun obj e => setProp e.1 e.2 obj) a acc = acc ++ a).
  { clear Hnd. induction a as [|[k0 v0] a IH]; intros acc Hnd;
      [now rewrite app_nil_r|].
    cbn [fold_left]. simpl fst. simpl snd. rewrite setProp_fresh.
    - rewrite IH; rewrite <- app_assoc; [reflexivity|exact Hnd].
    - rewrite map_app in Hnd. apply NoDup_app in Hnd as (_ & Hdisj & _).
      intros Hin. apply (Hdisj k0 Hin). cbn. apply elem_of_cons. now left. }
  apply (H []). exact Hnd.
Qed.

(** [{ ...a, ...b }] is a shallow merge: a key of [b] gets the value it
    has in [b], any other key keeps the value it has in [a]; no key is
    repeated; and, no key being the decimal form of a natural number, the
    keys of [a] keep their places and the new keys of [b] follow in the
    order of [b]. *)
Theorem spread_merges a b k :
  Forall (fun e => isIntegerKey e.1 = false) a ->
  Forall (fun e => isIntegerKey e.1 = false) b ->
  NoDup (map fst a) -> NoDup (map fst b) ->
  getProp k (spread a b)
  = match getProp k b with Some v => Some v | None => getProp k a end /\
  map fst (spread a b)
  = map fst a ++ List.filter (fun k => bool_decide (k ∉ map fst a)) (map fst b) /\
  NoDup (map fst (spread a b)).
Proof.
  intros _ _ Ha Hb.
  assert (Hcopy : fold_left (fun obj e => setProp e.1 e.2 obj) a [] = a).
  { apply (spread_copy a Ha). }
  unfold spread. rewrite Hcopy. split; [now apply assign_lookup|].
  split; [now apply assign_keys|now apply assign_NoDup].
Qed.

End Spread.

Lemma spread_merges_sample :
  getProp "store" (spread filtersAB [("store", Scalar (JS.Str "B"))])
  = Some (Scalar (JS.Str "B")).
Proof.
  refine (proj1 (spread_merges filtersAB [("store", Scalar (JS.Str "B"))] "store"
                   _ _ _ _)).
  - repeat (apply Forall_cons; split; [reflexivity|]). apply Forall_nil_2.
  - repeat (apply Forall_cons; split; [reflexivity|]). apply Forall_nil_2.
  - apply NoDup_two. discriminate.
  - apply NoDup_singleton.
Defined.

(** ** The store over its lifetime *)

Section Lifetime.

(** What an operation leaves: the store a resolution leaves, started from
    a store with the same manifest, index, cache and log. *)
Lemma runOp_resolves (net : Network) (op : Op) (st : Store) :
  exists filters st0,
    runOp net op st = (ensurePartitions net filters st0).2 /\
    metadata st0 = metadata st /\ partitionsByFilter st0 = partitionsByFilter st /\
    cache st0 = cache st /\ fetched st0 = fetched st.
Proof.
  destruct op as [|groupBy metrics|nextFilters]; cbn [runOp].
  - exists (activeFilters st), st. split; [|auto].
    unfold bootstrap, bind, gets. apply getRows_state.
  - exists (activeFilters st), st. split; [|auto].
    unfold query, bind, gets. rewrite <- (getRows_state net (activeFilters st) st).
    now destruct (getRows net (activeFilters st) st) as [[r|e] st'].
  - eexists _, _. rewrite setFilters_unfold, getRows_state. split; [reflexivity|].
    cbn. auto.
Qed.

(** The URLs a resolution requests are URLs of partitions of the index or
    of the manifest. *)
Lemma ensurePartitions_requests (net : Network) (filters : FilterState) (st : Store) :
  exists urls,
    fetched (ensurePartitions net filters st).2 = fetched st ++ urls /\
    Forall (fun url => exists p,
              (In p (partitions (metadata st)) \/
               partitionsByFilter st !! signature filters = Some p) /\
              url = partitionUrl p) urls.
Proof.
  destruct (cache st !! signature filters) as [slice|] eqn:Hc.
  - exists []. rewrite (ensurePartitions_hit _ _ _ _ Hc). cbn.
    now rewrite app_nil_r.
  - destruct (partitionsByFilter st !! signature filters) as [p|] eqn:Hi.
    + exists [partitionUrl p]. rewrite (ensurePartitions_exact _ _ _ _ Hc Hi).
      split; [now destruct (loadPartitionSlice _ _ _ _).1|].
      constructor; [eauto|constructor].
    + exists (map partitionUrl (partitions (metadata st))).
      rewrite (ensurePartitions_fallback _ _ _ Hc Hi).
      split; [now destruct (promiseAllMap _ _ _).1|].
      apply Forall_forall. intros url Hurl%list_elem_of_In.
      apply in_map_iff in Hurl as (p & <- & Hp). eauto.
Qed.

(** Whatever is called and whatever the network answers, the store keeps
    its manifest and its index, only adds to the log of requests, and
    requests nothing but partitions that the manifest declares (for a
    store whose index holds declared partitions only). *)
Theorem only_declared_partitions_are_requested (calls : list (Network * Op)) (st : Store) :
  (forall k p, partitionsByFilter st !! k = Some p -> In p (partitions (metadata st))) ->
  metadata (runOps calls st) = metadata st /\
  partitionsByFilter (runOps calls st) = partitionsByFilter st /\
  exists urls,
    fetched (runOps calls st) = fetched st ++ urls /\
    Forall (fun url => exists p, In p (partitions (metadata st)) /\ url = partitionUrl p)
           urls.
Proof.
  revert st. unfold runOps. induction calls as [|[net op] calls IH]; intros st Hwf.
  - cbn. split; [reflexivity|]. split; [reflexivity|]. exists [].
    now rewrite app_nil_r.
  - cbn [fold_left]. simpl fst. simpl snd.
    destruct (runOp_resolves net op st) as (filters & st0 & Hrun & Hm & Hi & _ & Hf).
    destruct (ensurePartitions_rest net filters st0) as (Hm' & Hi' & _ & _).
    destruct (ensurePartitions_requests net filters st0) as (urls1 & Hf1 & Hurls1).
    rewrite <- Hrun in Hm', Hi', Hf1. rewrite Hm in Hm', Hurls1. rewrite Hi in Hi', Hurls1.
    rewrite Hf in Hf1.
    destruct (IH (runOp net op st)) as (Hm2 & Hi2 & urls2 & Hf2 & Hurls2).
    { intros k p. rewrite Hm', Hi'. apply Hwf. }
    split; [now rewrite Hm2|]. split; [now rewrite Hi2|].
    exists (urls1 ++ urls2). split; [now rewrite Hf2, Hf1, app_assoc|].
    apply Forall_app. split.
    + eapply Forall_impl; [exact Hurls1|]. cbn. intros url (p & [Hp|Hp] & ->); eauto.
    + now rewrite Hm' in Hurls2.
Qed.

(** A store is created only from a manifest whose response is [ok] and
    decodes; it then has the index of the manifest's partitions, an empty
    cache and a copy of the initial filters, and no partition has been
    requested yet. *)
Theorem createDataStore_starts_empty (net : Network) (initialFilters : FilterState)
    (st : Store) :
  createDataStore net initialFilters = Ok st ->
  (exists response, fetchIndex net = Some response /\ ok response = true /\
                    json response = Some (metadata st)) /\
  partitionsByFilter st = indexPartitions (partitions (metadata st)) /\
  cache st = ∅ /\ fetched st = [] /\ emitted st = [] /\
  (NoDup (map fst initialFilters) -> activeFilters st = initialFilters).
Proof.
  unfold createDataStore, fetchMetadata.
  destruct (fetchIndex net) as [r|]; [|discriminate].
  destruct (ok r) eqn:Hok; cbn [negb]; [|discriminate].
  destruct (json r) as [md|] eqn:Hjson; [|discriminate].
  intros [= <-]. cbn. split; [eauto|]. repeat (split; [reflexivity|]).
  intros Hnd. now apply spread_copy.
Qed.

End Lifetime.

Lemma only_declared_sample :
  metadata (runOps [(sampleNetwork, SetFilters filters2099); (brokenNetwork, Bootstrap)]
                   sampleStore)
  = metadata sampleStore.
Proof.
  refine (proj1 (only_declared_partitions_are_requested
                   [(sampleNetwork, SetFilters filters2099); (brokenNetwork, Bootstrap)]
                   sampleStore _)).
  intros k p Hk.
  destruct (indexPartitions_lookup k (partitions (metadata sampleStore)))
    as [[Hnone _]|(pre & p' & post & Hsplit & _ & _ & Hsome)].
  - cbn in Hk, Hnone. congruence.
  - cbn in Hk, Hsome. rewrite Hk in Hsome. injection Hsome as <-.
    rewrite Hsplit. apply in_elt.
Defined.

Lemma createDataStore_starts_empty_sample : cache sampleStore = ∅.
Proof.
  refine (proj1 (proj2 (proj2 (createDataStore_starts_empty sampleNetwork [] sampleStore _)))).
  vm_compute. reflexivity.
Defined.

(** ** Failures are not cached *)

Section Failures.

Lemma promiseAllMap_result (net : Network) (fmt : string)
    (parts : list PartitionDescriptor) (st st' : Store) :
  (promiseAllMap (fun p => loadPartitionSlice net p fmt) parts st).1
  = (promiseAllMap (fun p => loadPartitionSlice net p fmt) parts st').1.
Proof.
  revert st st'. induction parts as [|p parts IH]; intros st st'; [reflexivity|].
  cbn [promiseAllMap]. rewrite (loadPartitionSlice_eq net p fmt st).
  rewrite (loadPartitionSlice_eq net p fmt st').
  rewrite (proj2 (loadPartitionSlice_run net p fmt st st')).
  specialize (IH (logged [partitionUrl p] st) (logged [partitionUrl p] st')).
  destruct (promiseAllMap _ parts (logged [partitionUrl p] st)) as [rs1 s1].
  destruct (promiseAllMap _ parts (logged [partitionUrl p] st')) as [rs2 s2].
  cbn in IH |- *. now rewrite IH.
Qed.

(** What a resolution returns does not depend on the log of requests. *)
Lemma ensurePartitions_logged (net : Network) (filters : FilterState)
    (urls : list string) (st : Store) :
  (ensurePartitions net filters (logged urls st)).1 = (ensurePartitions net filters st).1.
Proof.
  destruct (cache st !! signature filters) as [slice|] eqn:Hc.
  - now rewrite (ensurePartitions_hit net filters st slice Hc),
                (ensurePartitions_hit net filters (logged urls st) slice Hc).
  - destruct (partitionsByFilter st !! signature filters) as [p|] eqn:Hi.
    + rewrite (ensurePartitions_exact net filters st p Hc Hi),
              (ensurePartitions_exact net filters (logged urls st) p Hc Hi).
      cbn [metadata logged].
      rewrite (proj2 (loadPartitionSlice_run net p (format (metadata st))
                        (logged urls st) st)).
      now destruct (loadPartitionSlice net p (format (metadata st)) st).1.
    + rewrite (ensurePartitions_fallback net filters st Hc Hi),
              (ensurePartitions_fallback net filters (logged urls st) Hc Hi).
      cbn [metadata logged].
      rewrite (promiseAllMap_result net (format (metadata st)) (partitions (metadata st))
                 (logged urls st) st).
      now destruct (promiseAllMap _ (partitions (metadata st)) st).1.
Qed.

(** A resolution that throws leaves no trace in the cache, so the failure
    is not remembered: the next resolution of the same filter state asks
    the network again and returns what it would have returned from the
    store before the failure. *)
Theorem failure_is_not_cached (net net' : Network) (filters : FilterState)
    (st st' : Store) (e : Exn) :
  ensurePartitions net filters st = (Throw e, st') ->
  cache st' = cache st /\
  (ensurePartitions net' filters st').1 = (ensurePartitions net' filters st).1.
Proof.
  intros Hrun. pose proof (ensurePartitions_cases net filters st) as Hcases.
  destruct (cache st !! signature filters) as [slice|] eqn:Hc.
  - rewrite Hrun in Hcases. discriminate.
  - destruct Hcases as [urls [[e' He]|[slice Hs]]]; rewrite Hrun in *; [|discriminate].
    injection He as _ ->. split; [reflexivity|]. apply ensurePartitions_logged.
Qed.

(** When the partition that matches the filter state answers with a
    response that is not [ok], the resolution throws "Failed to download"
    with the URL, having requested that URL only, and caches nothing. *)
Theorem exact_match_failure (net : Network) (filters : FilterState) (st : Store)
    (p : PartitionDescriptor) (response : Response Slice) :
  cache st !! signature filters = None ->
  partitionsByFilter st !! signature filters = Some p ->
  fetchPartition net (partitionUrl p) = Some response -> ok response = false ->
  ensurePartitions net filters st
  = (Throw (Error ("Failed to download " +:+ partitionUrl p)),
     logged [partitionUrl p] st).
Proof.
  intros Hmiss Hindex Hfetch Hok. rewrite (ensurePartitions_exact _ _ _ _ Hmiss Hindex).
  now rewrite (loadPartitionSlice_not_ok _ _ _ _ _ Hfetch Hok).
Qed.

End Failures.

Definition filtersFebruary : FilterState := [("date", Scalar (JS.Str "2024-02"))].

Lemma exact_match_failure_sample :
  ensurePartitions brokenNetwork filtersFebruary sampleStore
  = (Throw (Error ("Failed to download " +:+ partitionUrl partitionFebruary)),
     logged [partitionUrl partitionFebruary] sampleStore).
Proof.
  refine (exact_match_failure brokenNetwork filtersFebruary sampleStore partitionFebruary
            notFound _ _ _ _).
  - vm_compute. reflexivity.
  - vm_compute. reflexivity.
  - vm_compute. reflexivity.
  - reflexivity.
Defined.

Lemma failure_is_not_cached_sample :
  (ensurePartitions sampleNetwork filtersFebruary
     (logged [partitionUrl partitionFebruary] sampleStore)).1
  = (ensurePartitions sampleNetwork filtersFebruary sampleStore).1.
Proof.
  refine (proj2 (failure_is_not_cached brokenNetwork sampleNetwork filtersFebruary
                   sampleStore (logged [partitionUrl partitionFebruary] sampleStore)
                   (Error ("Failed to download " +:+ partitionUrl partitionFebruary)) _)).
  vm_compute. reflexivity.
Defined.

(** ** Grouping by a column that is not there *)

Lemma firstSeen_constant (k : string) (n : nat) :
  firstSeen (List.repeat k (S n)) = [k].
Proof.
  unfold firstSeen. cbn [List.repeat fold_left].
  rewrite bool_decide_eq_false_2 by apply not_elem_of_nil. cbn [app].
  induction n as [|n IH]; [reflexivity|]. cbn [List.repeat fold_left].
  rewrite bool_decide_eq_true_2 by (apply elem_of_cons; now left). exact IH.
Qed.

(** A group-by column that the row index does not know gives every row the
    sentinel as key: all the rows end up in one bucket. *)
Theorem group_by_unknown_column (rs : list Row) (columnIndex : gmap string nat)
    (column : string) (metrics : list Metric) :
  columnIndex !! column = None -> rs <> [] ->
  exists b, buildPivot rs columnIndex [column] metrics = [b] /\
            key b = "∅" /\ rows b = rs.
Proof.
  intros Hnone Hne.
  assert (Hkey : forall row, groupKeyOf columnIndex [column] row = "∅").
  { intros row. unfold groupKeyOf. cbn [map Str.join]. now rewrite Hnone. }
  pose proof (buildPivot_keys rs columnIndex [column] metrics) as Hkeys.
  rewrite (map_ext _ (fun _ => "∅") Hkey), map_const in Hkeys.
  destruct rs as [|r rs]; [contradiction|]. cbn [length] in Hkeys.
  rewrite firstSeen_constant in Hkeys.
  destruct (buildPivot (r :: rs) columnIndex [column] metrics) as [|b [|b' pivot]] eqn:Hp;
    try discriminate.
  injection Hkeys as Hk. exists b. split; [reflexivity|]. split; [exact Hk|].
  destruct (buildPivot_bucket (r :: rs) columnIndex [column] metrics b) as (Hrows & _).
  { rewrite Hp. now left. }
  rewrite Hrows, Hk. unfold groupRows. apply filter_all. intros row _.
  apply bool_decide_eq_true. apply Hkey.
Qed.

Lemma group_by_unknown_column_sample :
  exists b, buildPivot sampleRows sampleIndex ["campaign"] [spendSum] = [b] /\
            key b = "∅" /\ rows b = sampleRows.
Proof.
  apply (group_by_unknown_column sampleRows sampleIndex "campaign" [spendSum]).
  - reflexivity.
  - discriminate.
Defined.

(** ** Queries on a resolved filter state *)

(** Once the slice of the active filters is cached, [query] needs no
    network: it filters the rows of that slice by the active filters, with
    the index of the slice's columns, and pivots them; the store is left as
    it is. *)
Theorem query_on_cached_slice (net : Network) (groupBy : list string)
    (metrics : list Metric) (st : Store) (slice : Slice) :
  cache st !! signature (activeFilters st) = Some slice ->
  query net groupBy metrics st
  = (Ok (buildPivot (filterRows (createColumnIndex (columns slice)) (data slice)
                                (activeFilters st))
                    (createColumnIndex (columns slice)) groupBy metrics),
     st).
Proof.
  intros Hhit. unfold query, getRows, bind, gets, ret.
  now rewrite (ensurePartitions_hit net (activeFilters st) st slice Hhit).
Qed.

Lemma query_on_cached_slice_sample :
  query brokenNetwork ["store"] [spendSum]
        (cached (signature []) sliceJanuary sampleStore)
  = (Ok (buildPivot (filterRows (createColumnIndex (columns sliceJanuary))
                                (data sliceJanuary) [])
                    (createColumnIndex (columns sliceJanuary)) ["store"] [spendSum]),
     cached (signature []) sliceJanuary sampleStore).
Proof.
  refine (query_on_cached_slice brokenNetwork ["store"] [spendSum]
            (cached (signature []) sliceJanuary sampleStore) sliceJanuary _).
  vm_compute. reflexivity.
Defined.

(** ** A cleared filter and the signature *)

Section Cleared.

Lemma length_app_s (s t : string) :
  String.length (s +:+ t) = (String.length s + String.length t)%nat.
Proof. induction s as [|c s IH]; [reflexivity|]. rewrite app_cons. cbn. now rewrite IH. Qed.

Lemma join_snoc_length (sep : string) (l : list string) (m : string) :
  String.length (Str.join sep (l ++ [m]))
  = (String.length (Str.join sep l) + String.length m
     + match l with [] => 0 | _ => String.length sep end)%nat.
Proof.
  induction l as [|x l IH]; [cbn; lia|].
  destruct l as [|y l]; cbn [app Str.join] in *.
  - rewrite ?length_app_s. lia.
  - rewrite ?length_app_s, IH, ?length_app_s. lia.
Qed.

Lemma omap_snoc (f : FilterState) (e : string * FilterValue) (m : string) :
  stringifyMember e = Some m ->
  omap stringifyMember (f ++ [e]) = omap stringifyMember f ++ [m].
Proof.
  intros He. induction f as [|e0 f IH]; cbn [app omap list_omap].
  - now rewrite He.
  - rewrite IH. now destruct (stringifyMember e0).
Qed.

(** A filter that is cleared by setting it to [null], to the empty string
    or to the empty sequence constrains nothing, but it is written in the
    signature: the filter state does not have the signature it has without
    that key, although it selects the same rows. *)
Theorem cleared_filter_changes_signature (columnIndex : gmap string nat)
    (rows : list Row) (f : FilterState) (k : string) (v : FilterValue) :
  isEmptyValue v = true -> v <> Scalar JS.Undefined ->
  signature (f ++ [(k, v)]) <> signature f /\
  filterRows columnIndex rows (f ++ [(k, v)]) = filterRows columnIndex rows f.
Proof.
  intros Hempty Hdef. split.
  - assert (Hm : exists s, stringifyMember (k, v) = Some (JS.quote k +:+ ":" +:+ s)).
    { unfold stringifyMember. destruct v as [[| |b|x|s]|xs]; simpl in *;
        try (eexists; reflexivity); congruence. }
    destruct Hm as [s Hm]. intros Heq. apply (f_equal String.length) in Heq.
    unfold signature, JSON_stringify in Heq. rewrite (omap_snoc _ _ _ Hm) in Heq.
    rewrite !length_app_s, join_snoc_length, !length_app_s in Heq.
    unfold JS.quote in Heq. cbn [String.length] in Heq. lia.
  - rewrite !filterRows_filter, List.filter_app. cbn [List.filter].
    destruct (isConstraint (k, v)) eqn:Hc; [|now rewrite app_nil_r].
    apply filter_agree. intros row. rewrite forallb_app. cbn [forallb].
    rewrite (empty_value_matches columnIndex row (k, v) Hempty Hc).
    now rewrite !andb_true_r.
Qed.

End Cleared.

Lemma cleared_filter_sample :
  signature (part_filters partitionJanuary ++ [("store", Scalar JS.Null)])
  <> signature (part_filters partitionJanuary).
Proof.
  refine (proj1 (cleared_filter_changes_signature sampleIndex sampleRows
                   (part_filters partitionJanuary) "store" (Scalar JS.Null) _ _)).
  - reflexivity.
  - discriminate.
Defined.

(** ** The event emitter

    [createEmitter] keeps its listeners in a [Set]: callbacks, compared by
    identity, in the order in which they were added. A callback is
    represented by a number that identifies it; the callbacks are assumed
    neither to throw nor to subscribe or unsubscribe while an event is
    being delivered. *)
Module Emitter.

(** [listeners.add(callback)], what [subscribe] does. *)
Definition subscribe (callback : nat) (listeners : list nat) : list nat :=
  if bool_decide (callback ∈ listeners) then listeners else listeners ++ [callback].

(** [listeners.delete(callback)], what the function returned by [subscribe]
    does. *)
Definition unsubscribe (callback : nat) (listeners : list nat) : list nat :=
  List.filter (fun c => negb (bool_decide (c = callback))) listeners.

(** [emit(payload)]: the calls made, in order. *)
Definition emit {P : Type} (payload : P) (listeners : list nat) : list (nat * P) :=
  map (fun callback => (callback, payload)) listeners.

(** What a client does with an emitter. *)
Inductive Action : Type :=
| Subscribe (callback : nat)
| Unsubscribe (callback : nat).

Definition act (listeners : list nat) (a : Action) : list nat :=
  match a with
  | Subscribe callback => subscribe callback listeners
  | Unsubscribe callback => unsubscribe callback listeners
  end.

(** The listeners of a new emitter after some actions. *)
Definition after (actions : list Action) : list nat := fold_left act actions [].

Lemma act_NoDup (listeners : list nat) (a : Action) :
  NoDup listeners -> NoDup (act listeners a).
Proof.
  intros Hnd. destruct a as [c|c]; cbn [act].
  - unfold subscribe. destruct (bool_decide (c ∈ listeners)) eqn:Hc; [exact Hnd|].
    apply bool_decide_eq_false in Hc. apply NoDup_app. split; [exact Hnd|]. split.
    + intros x Hx Hx'. apply list_elem_of_singleton in Hx'. now subst.
    + apply NoDup_singleton.
  - unfold unsubscribe. apply NoDup_ListNoDup. apply List.NoDup_filter.
    now apply NoDup_ListNoDup.
Qed.

Lemma after_NoDup (actions : list Action) : NoDup (after actions).
Proof.
  unfold after. assert (H : forall ls, NoDup ls -> NoDup (fold_left act actions ls)).
  { induction actions as [|a actions IH]; intros ls Hls; [exact Hls|].
    cbn [fold_left]. apply IH. now apply act_NoDup. }
  apply H. apply NoDup_nil_2.
Qed.

Lemma act_elem (listeners : list nat) (a : Action) (c : nat) :
  c ∈ act listeners a
  <-> match a with
      | Subscribe c' => c = c' \/ c ∈ listeners
      | Unsubscribe c' => c <> c' /\ c ∈ listeners
      end.
Proof.
  destruct a as [c'|c']; cbn [act].
  - unfold subscribe. destruct (bool_decide (c' ∈ listeners)) eqn:Hc.
    + apply bool_decide_eq_true in Hc. split; [tauto|]. intros [->|H]; assumption.
    + rewrite elem_of_app, list_elem_of_singleton. tauto.
  - unfold unsubscribe. rewrite !list_elem_of_In, filter_In, negb_true_iff,
      bool_decide_eq_false. tauto.
Qed.

Lemma after_subscribes (cs : list nat) : NoDup cs -> after (map Subscribe cs) = cs.
Proof.
  induction cs as [|c cs IH] using rev_ind; intros Hnd; [reflexivity|].
  apply NoDup_app in Hnd as (Hcs & Hnew & _).
  rewrite map_app. unfold after. rewrite fold_left_app. cbn [map fold_left act].
  fold (after (map Subscribe cs)). rewrite (IH Hcs). unfold subscribe.
  rewrite bool_decide_eq_false_2; [reflexivity|].
  intros Hc. apply (Hnew c Hc). now apply list_elem_of_singleton.
Qed.

Lemma emit_filter {P : Type} (payload : P) (c : nat) (listeners : list nat) :
  emit payload (unsubscribe c listeners)
  = List.filter (fun call => negb (bool_decide (call.1 = c))) (emit payload listeners).
Proof.
  unfold emit, unsubscribe. induction listeners as [|x listeners IH];
    cbn [List.filter map fst]; [reflexivity|].
  destruct (bool_decide (x = c)); cbn [negb map]; now rewrite IH.
Qed.

(** An event is delivered once to every callback that is subscribed, in
    the order of subscription, and to no other.  A new emitter calls
    nothing; subscribing a callback that is not subscribed puts it last,
    after the others in their order, and subscribing one that is changes
    nothing; unsubscribing a callback takes it out and leaves the others in
    their order; so after distinct callbacks have subscribed one by one,
    they are called in that order.  What is done with another callback does
    not matter to a callback. *)
Theorem emit_delivers_once {P : Type} (payload : P) (actions : list Action) (c : nat) :
  emit payload (after []) = [] /\
  emit payload (after (actions ++ [Subscribe c]))
  = emit payload (after actions)
    ++ (if bool_decide (c ∈ after actions) then [] else [(c, payload)]) /\
  emit payload (after (actions ++ [Unsubscribe c]))
  = List.filter (fun call => negb (bool_decide (call.1 = c)))
                (emit payload (after actions)) /\
  (forall cs, NoDup cs ->
     emit payload (after (map Subscribe cs)) = map (fun c' => (c', payload)) cs) /\
  NoDup (map fst (emit payload (after actions))) /\
  (forall c' p, In (c', p) (emit payload (after actions))
                <-> (c' ∈ after actions) /\ p = payload) /\
  (c ∈ after (actions ++ [Subscribe c])) /\
  (c ∉ after (actions ++ [Unsubscribe c])) /\
  (forall a, a <> Subscribe c -> a <> Unsubscribe c ->
             (c ∈ after (actions ++ [a]) <-> c ∈ after actions)).
Proof.
  repeat apply conj.
  - reflexivity.
  - unfold after. rewrite fold_left_app. cbn [fold_left act]. unfold subscribe, emit.
    destruct (bool_decide (c ∈ fold_left act actions [])).
    + now rewrite app_nil_r.
    + now rewrite map_app.
  - unfold after. rewrite fold_left_app. cbn [fold_left act]. apply emit_filter.
  - intros cs Hcs. now rewrite after_subscribes.
  - unfold emit. rewrite map_map. cbn. rewrite map_id. apply after_NoDup.
  - intros c' p. unfold emit. rewrite in_map_iff. split.
    + intros (x & [= <- <-] & Hx). split; [now apply list_elem_of_In|reflexivity].
    + intros [Hc ->]. exists c'. split; [reflexivity|now apply list_elem_of_In].
  - unfold after. rewrite fold_left_app. cbn [fold_left]. apply act_elem. now left.
  - unfold after. rewrite fold_left_app. cbn [fold_left]. rewrite act_elem. tauto.
  - intros a Hs Hu. unfold after. rewrite fold_left_app. cbn [fold_left].
    rewrite act_elem. destruct a as [c'|c']; split; try tauto.
    + intros [->|H]; [congruence|exact H].
    + intros H. split; [congruence|exact H].
Qed.

(** Three callbacks subscribe, the first one twice, and the second one
    leaves: the other two are called, in the order in which they came. *)
Lemma emit_order_sample :
  emit "changed" (after (map Subscribe [7; 3; 5]%nat))
  = [(7, "changed"); (3, "changed"); (5, "changed")]%nat /\
  emit "changed"
       (after [Subscribe 7; Subscribe 3; Subscribe 7; Subscribe 5; Unsubscribe 3]%nat)
  = [(7, "changed"); (5, "changed")]%nat.
Proof.
  split.
  - refine (proj1 (proj2 (proj2 (proj2 (emit_delivers_once "changed" [] 0%nat))))
             [7; 3; 5]%nat _).
    apply NoDup_ListNoDup. repeat constructor; cbn; intuition discriminate.
  - reflexivity.
Defined.

End Emitter.
